(** * astroid/helpers.py: type inference helpers

    A shallow embedding of [astroid/helpers.py] and the properties of its
    public operations: [safe_infer], [object_type], [has_known_bases],
    [is_subtype], [is_supertype] and [class_instance_as_index].

    The module sits on top of collaborators that live elsewhere in astroid
    (node inference, attribute lookup, method resolution order, class
    building).  They are gathered in the record [World]; the helpers are
    encoded over an arbitrary world. *)

From stdpp Require Import base option list strings gmap.
From Stdlib Require Import ZArith Lia.

Open Scope string_scope.
Open Scope nat_scope.
Open Scope list_scope.

(** ** Objects *)

(** Syntax-tree nodes are Python objects compared by identity; a node is
    represented by its identity.  Class definitions found in the analysed
    tree are nodes as well. *)
Definition node := nat.

(** The value held by a [Const] node. *)
Inductive const_value :=
| PyInt (z : Z)
| PyBool (b : bool)
| PyStr (s : string)
| PyNone.

(** [isinstance(value, int)]: [bool] is a subclass of [int]. *)
Definition isinstance_int (v : const_value) : bool :=
  match v with
  | PyInt _ | PyBool _ => true
  | _ => false
  end.

(** [util.YES], the sentinel of an answer that could not be determined,
    next to the definite answers of type [A]. *)
Inductive or_YES (A : Type) :=
| YES
| Definite (a : A).
Arguments YES {A}.
Arguments Definite {A} a.

Global Instance or_YES_eq_dec `{EqDecision A} : EqDecision (or_YES A).
Proof. solve_decision. Defined.

Global Instance or_YES_countable `{Countable A} : Countable (or_YES A).
Proof.
  refine (inj_countable'
    (λ r, match r with YES => None | Definite a => Some a end)
    (λ x, match x with None => YES | Some a => Definite a end) _).
  by intros [].
Defined.

(** A class: one of the analysed tree, or one made on demand by
    [raw_building.build_class].  The latter are numbered in the order of
    their creation, so a class that was just built is different from every
    other object. *)
Inductive class_ref :=
| Klass (c : node)
| Proxy (p : nat).

Global Instance class_ref_eq_dec : EqDecision class_ref.
Proof. solve_decision. Defined.

Global Instance class_ref_countable : Countable class_ref.
Proof.
  refine (inj_countable'
    (λ r, match r with Klass c => inl c | Proxy p => inr p end)
    (λ x, match x with inl c => Klass c | inr p => Proxy p end) _).
  by intros [].
Defined.

(** What [type()] of a node can be. *)
Definition ref := or_YES class_ref.

(** The candidates an inference can yield.  [BoundMethod] and
    [UnboundMethod] carry the identity of the method, [Lambda] (plain
    functions and lambdas) the name of the module it is rooted in, and the
    remaining values the class they are proxied against. *)
Inductive value :=
| ClassDef (c : node)
| Lambda (root_name : string)
| BoundMethod (m : nat)
| UnboundMethod (m : nat)
| Module
| Const (v : const_value) (proxied : ref)
| Instance (proxied : ref)
| Uninferable.

Definition isinstance_ClassDef (v : value) : bool :=
  match v with ClassDef _ => true | _ => false end.

Definition isinstance_Lambda (v : value) : bool :=
  match v with Lambda _ => true | _ => false end.

Definition isinstance_BoundMethod (v : value) : bool :=
  match v with BoundMethod _ => true | _ => false end.

(** Bound methods derive from unbound ones, so that a bound method is an
    instance of [runtimeabc.UnboundMethod] too. *)
Definition isinstance_UnboundMethod (v : value) : bool :=
  match v with BoundMethod _ | UnboundMethod _ => true | _ => false end.

Definition isinstance_Module (v : value) : bool :=
  match v with Module => true | _ => false end.

(** [inferred._proxied]; [util.YES] answers every attribute with itself. *)
Definition _proxied (v : value) : ref :=
  match v with
  | Const _ p | Instance p => p
  | _ => YES
  end.

(** ** Lazy candidate sequences *)

(** One pull on a generator of the inference engine: it yields a candidate,
    returns (the sequence is over), or raises [InferenceError]. *)
Inductive event :=
| Yield (v : value)
| Stop
| Error.

(** A generator is the sequence of what its successive [next] calls do; a
    sequence that yields at every position is infinite.  Positions after
    the first [Stop] or [Error] are never looked at. *)
Definition gen := nat → event.

Record CallContext := { args : list node }.
Record InferenceContext := { callcontext : option CallContext }.

(** ** The collaborators *)

Record World := {
  (** [six.PY2] *)
  PY2 : bool;
  (** [node.infer(context=context)] *)
  infer : node → option InferenceContext → gen;
  (** [node.igetattr(name, context=context)] *)
  igetattr : node → string → InferenceContext → gen;
  (** [method.infer_call_result(caller, context=context)] *)
  infer_call_result : nat → node → InferenceContext → gen;
  (** [klass.bases] *)
  bases : node → list node;
  (** [klass.newstyle] *)
  newstyle : node → bool;
  (** [klass.metaclass()] *)
  metaclass : node → option node;
  (** [klass.mro()]; [None] when it raises [MroError] *)
  mro : node → option (list node);
  (** [astroid_cache[BUILTINS]], the module of the built-ins *)
  builtins_module : node;
  (** [builtins.getattr('type')[0]] *)
  builtins_type : node
}.

(** [BUILTINS = six.moves.builtins.__name__] *)
Definition BUILTINS (W : World) : string :=
  if PY2 W then "__builtin__" else "builtins".

(** ** Mutable state, exceptions and divergence *)

(** A class made by [raw_building.build_class]. *)
Record built_class := {
  name : string;
  parent : option node
}.

Record State := {
  (** the [_all_bases_known] attribute of the classes that have it *)
  _all_bases_known : gmap node bool;
  (** the classes built so far; [Proxy p] is the one at position [p] *)
  built : list built_class;
  (** how many candidates were requested from the inference engine *)
  pulls : nat
}.

Definition empty_state : State :=
  {| _all_bases_known := ∅; built := []; pulls := 0 |}.

Definition store_known (klass : node) (b : bool) (st : State) : State :=
  {| _all_bases_known := <[klass:=b]> (_all_bases_known st);
     built := built st;
     pulls := pulls st |}.

Definition tick (st : State) : State :=
  {| _all_bases_known := _all_bases_known st;
     built := built st;
     pulls := S (pulls st) |}.

Inductive exn :=
| StopIteration
| InferenceError
| MroError
| UnboundLocalError
| IndexError
| AttributeError.

Global Instance exn_eq_dec : EqDecision exn.
Proof. solve_decision. Defined.

Inductive outcome (A : Type) :=
| Return (a : A)
| Raise (e : exn).
Arguments Return {A} a.
Arguments Raise {A} e.

(** A computation runs in a state; it ends with a value or an exception and
    a new state, or it has not ended when the recursion budget is used up
    ([None]). *)
Definition M (A : Type) : Type := State → option (outcome A * State).

Definition ret {A} (a : A) : M A := λ st, Some (Return a, st).

Definition raise {A} (e : exn) : M A := λ st, Some (Raise e, st).

Definition out_of_fuel {A} : M A := λ _, None.

Definition bind {A B} (m : M A) (k : A → M B) : M B :=
  λ st, match m st with
        | Some (Return a, st') => k a st'
        | Some (Raise e, st') => Some (Raise e, st')
        | None => None
        end.

(** [try: m except ...: h e]; [handler e = None] when no clause of the
    statement matches [e]. *)
Definition try_except {A} (m : M A) (handler : exn → option (M A)) : M A :=
  λ st, match m st with
        | Some (Raise e, st') =>
            match handler e with
            | Some h => h st'
            | None => Some (Raise e, st')
            end
        | r => r
        end.

Global Instance M_ret : MRet M := @ret.
Global Instance M_bind : MBind M := λ A B k m, bind m k.

(** [next(g)] on a generator that has been pulled [i] times. *)
Definition next (g : gen) (i : nat) : M value :=
  λ st,
    match g i with
    | Yield v => Some (Return v, tick st)
    | Stop => Some (Raise StopIteration, tick st)
    | Error => Some (Raise InferenceError, tick st)
    end.

(** [for x in g: body], entered when [g] has been pulled [i] times.  The
    body answers [Some r] for [return r] and [None] to go on with the next
    candidate; the loop answers [None] when the candidates are used up. *)
Fixpoint for_in {R} (fuel : nat) (g : gen) (i : nat)
    (body : value → M (option R)) : M (option R) :=
  match fuel with
  | 0 => out_of_fuel
  | S fuel =>
      x ← try_except (v ← next g i; ret (Some v))
            (λ e, match e with
                  | StopIteration => Some (ret None)
                  | _ => None
                  end);
      match x with
      | None => ret None
      | Some v =>
          r ← body v;
          match r with
          | Some r => ret (Some r)
          | None => for_in fuel g (S i) body
          end
      end
  end.

(** [set(g)] for a generator [g] written in Python: [g i] is what its next
    pull does after [i] of them, [StopIteration] telling its end. *)
Fixpoint set_of `{Countable A} (fuel : nat) (g : nat → M A) (i : nat)
    (acc : gset A) : M (gset A) :=
  match fuel with
  | 0 => out_of_fuel
  | S fuel =>
      x ← try_except (a ← g i; ret (Some a))
            (λ e, match e with
                  | StopIteration => Some (ret None)
                  | _ => None
                  end);
      match x with
      | None => ret acc
      | Some a => set_of fuel g (S i) (acc ∪ {[a]})
      end
  end.

(** ** The helpers *)

Section Helpers.

Context (W : World).

(** [raw_building.build_class(name)]: a new class, without a parent. *)
Definition build_class (cls_name : string) : M nat :=
  λ st, Some (Return (length (built st)),
              {| _all_bases_known := _all_bases_known st;
                 built := built st ++ [{| name := cls_name; parent := None |}];
                 pulls := pulls st |}).

(** [proxy.parent = p] *)
Definition set_parent (proxy : nat) (p : node) : M unit :=
  λ st, Some (Return (),
              {| _all_bases_known := _all_bases_known st;
                 built := alter (λ c, {| name := name c; parent := Some p |})
                            proxy (built st);
                 pulls := pulls st |}).

Definition _build_proxy_class (cls_name : string) (builtins : node) : M nat :=
  proxy ← build_class cls_name;
  _ ← set_parent proxy builtins;
  ret proxy.

Definition _function_type (function : value) (builtins : node) : M nat :=
  cls_name ←
    (if isinstance_Lambda function then
       match function with
       | Lambda root_name =>
           if String.eqb root_name (BUILTINS W)
           then ret "builtin_function_or_method"
           else ret "function"
       | _ => ret "function"
       end
     else if isinstance_BoundMethod function then
       if PY2 W then ret "instancemethod" else ret "method"
     else if isinstance_UnboundMethod function then
       if PY2 W then ret "instancemethod" else ret "function"
     else raise UnboundLocalError);
  _build_proxy_class cls_name builtins.

(** The generator [_object_type(node, context)]: its next pull after [i]
    of them. *)
Definition _object_type (n : node) (context : option InferenceContext)
    (i : nat) : M ref :=
  let builtins := builtins_module W in
  let context :=
    match context with
    | Some c => c
    | None => {| callcontext := None |}
    end in
  inferred ← next (infer W n (Some context)) i;
  if isinstance_ClassDef inferred then
    match inferred with
    | ClassDef c =>
        match metaclass W c with
        | Some m => ret (Definite (Klass m))
        | None => ret (Definite (Klass (builtins_type W)))
        end
    | _ => ret YES
    end
  else if isinstance_Lambda inferred || isinstance_UnboundMethod inferred then
    p ← _function_type inferred builtins; ret (Definite (Proxy p))
  else if isinstance_Module inferred then
    p ← _build_proxy_class "module" builtins; ret (Definite (Proxy p))
  else ret (_proxied inferred).

Definition object_type (fuel : nat) (n : node)
    (context : option InferenceContext) : M ref :=
  types ← try_except
             (t ← set_of fuel (_object_type n context) 0 ∅; ret (Some t))
             (λ e, match e with
                   | InferenceError => Some (ret None)
                   | _ => None
                   end);
  match types with
  | None => ret YES
  | Some types =>
      if (1 <? size types)%nat || (size types =? 0)%nat then ret YES
      else match elements types with
           | t :: _ => ret t
           | [] => raise IndexError
           end
  end.

(** [safe_infer(node, context=None)]; the result [None] is Python's. *)
Definition safe_infer (n : node) (context : option InferenceContext)
    : M (option value) :=
  let inferit := infer W n context in
  first ← try_except (value ← next inferit 0; ret (Some value))
            (λ e, match e with
                  | InferenceError => Some (ret None)
                  | _ => None
                  end);
  match first with
  | None => ret None
  | Some value =>
      try_except (_ ← next inferit 1; ret None)
        (λ e, match e with
              | InferenceError => Some (ret None)
              | StopIteration => Some (ret (Some value))
              | _ => None
              end)
  end.

(** [klass._all_bases_known], which raises [AttributeError] on a class
    that has no such attribute yet. *)
Definition get_all_bases_known (klass : node) : M bool :=
  λ st, match _all_bases_known st !! klass with
        | Some b => Some (Return b, st)
        | None => Some (Raise AttributeError, st)
        end.

(** [klass.mro()] *)
Definition call_mro (klass : node) : M (list node) :=
  match mro W klass with
  | Some order => ret order
  | None => raise MroError
  end.

(** [klass._all_bases_known = b] *)
Definition set_all_bases_known (klass : node) (b : bool) : M unit :=
  λ st, Some (Return (), store_known klass b st).

(** The loop of [has_known_bases] over [klass.bases], with [rec] for the
    recursive call. *)
Fixpoint bases_loop (rec : node → M bool) (klass : node)
    (context : option InferenceContext) (bs : list node) : M bool :=
  match bs with
  | [] => _ ← set_all_bases_known klass true; ret true
  | base :: bs =>
      result ← safe_infer base context;
      unknown ←
        match result with
        | Some (ClassDef r) =>
            if bool_decide (r = klass) then ret true
            else known ← rec r; ret (negb known)
        | _ => ret true
        end;
      if (unknown : bool) then _ ← set_all_bases_known klass false; ret false
      else bases_loop rec klass context bs
  end.

Fixpoint has_known_bases (fuel : nat) (klass : node)
    (context : option InferenceContext) : M bool :=
  match fuel with
  | 0 => out_of_fuel
  | S fuel =>
      cached ← try_except (b ← get_all_bases_known klass; ret (Some b))
                 (λ e, match e with
                       | AttributeError => Some (ret None)
                       | _ => None
                       end);
      match cached with
      | Some b => ret b
      | None =>
          bases_loop (λ r, has_known_bases fuel r context) klass context
            (bases W klass)
      end
  end.

(** [all(map(has_known_bases, (type1, type2)))].  In Python 2 [map] makes
    the whole list first, so that an exception of [has_known_bases] leaves
    the expression.  In Python 3 [map] is lazy: [all] stops at the first
    false element, and a [StopIteration] that leaves [has_known_bases]
    comes out of the iterator, where [all] takes it for the end of the
    elements and answers true. *)
Definition all_known_bases (fuel : nat) (type1 type2 : node) : M bool :=
  if PY2 W then
    k1 ← has_known_bases fuel type1 None;
    k2 ← has_known_bases fuel type2 None;
    ret (k1 && k2)
  else
    try_except
      (k1 ← has_known_bases fuel type1 None;
       if (k1 : bool) then has_known_bases fuel type2 None else ret false)
      (λ e, match e with
            | StopIteration => Some (ret true)
            | _ => None
            end).

Definition _type_check (fuel : nat) (type1 type2 : node) : M (or_YES bool) :=
  known ← all_known_bases fuel type1 type2;
  if negb known then ret YES
  else if negb (newstyle W type1 && newstyle W type2) then ret (Definite false)
  else
    try_except
      (order ← call_mro type2;
       ret (Definite (bool_decide (type1 ∈ removelast order))))
      (λ e, match e with
            | MroError => Some (ret YES)
            | _ => None
            end).

Definition is_subtype (fuel : nat) (type1 type2 : node) : M (or_YES bool) :=
  _type_check fuel type2 type1.

Definition is_supertype (fuel : nat) (type1 type2 : node) : M (or_YES bool) :=
  _type_check fuel type1 type2.

Definition class_instance_as_index (fuel : nat) (n : node) : M (option value) :=
  let context := {| callcontext := Some {| args := [n] |} |} in
  try_except
    (for_in fuel (igetattr W n "__index__" context) 0 (λ inferred,
       match inferred with
       | BoundMethod m =>
           for_in fuel (infer_call_result W m n context) 0 (λ result,
             match result with
             | Const v _ =>
                 if isinstance_int v then ret (Some result) else ret None
             | _ => ret None
             end)
       | _ => ret None
       end))
    (λ e, match e with
          | InferenceError => Some (ret None)
          | _ => None
          end).

End Helpers.

(** ** Collapsing a candidate sequence *)

(** What [safe_infer] makes of a candidate sequence, and how many
    candidates it requests for that. *)
Definition single (g : gen) : outcome (option value) :=
  match g 0 with
  | Error => Return None
  | Stop => Raise StopIteration
  | Yield v =>
      match g 1 with
      | Stop => Return (Some v)
      | _ => Return None
      end
  end.

Definition drawn (g : gen) : nat :=
  match g 0 with
  | Yield _ => 2
  | _ => 1
  end.

(** ** What a generator gives *)

(** From position [i] on, [g] yields the candidates [vs], in that order. *)
Fixpoint yields (g : gen) (i : nat) (vs : list value) : Prop :=
  match vs with
  | [] => True
  | v :: vs => g i = Yield v ∧ yields g (S i) vs
  end.

(** [g] yields exactly the candidates [vs] and then ends with [e]: [Stop]
    for a clean end, [Error] for an inference failure. *)
Definition produces (g : gen) (vs : list value) (e : event) : Prop :=
  yields g 0 vs ∧ g (length vs) = e.

(** [g] comes to an end, cleanly or with an inference failure. *)
Definition ends (g : gen) : Prop :=
  ∃ vs e, produces g vs e ∧ (e = Stop ∨ e = Error).

(** ** Classes whose bases are all known *)

Section Known.

Context (W : World) (context : option InferenceContext).

(** The class a base resolves to, when it resolves to a single candidate
    that is a class. *)
Definition base_class (base : node) : option node :=
  match single (infer W base context) with
  | Return (Some (ClassDef r)) => Some r
  | _ => None
  end.

(** Every base of [klass] resolves to a single class, other than [klass],
    whose bases are known in turn; [d] bounds the height of the hierarchy
    that is explored. *)
Fixpoint known_at (d : nat) (klass : node) : bool :=
  match d with
  | 0 => false
  | S d =>
      forallb (λ base,
                 match base_class base with
                 | Some r => negb (bool_decide (r = klass)) && known_at d r
                 | None => false
                 end)
        (bases W klass)
  end.

Definition known (klass : node) : Prop := ∃ d, known_at d klass = true.

(** The four checks on a base of [klass]. *)
Definition base_passes (klass base : node) : Prop :=
  ∃ r, produces (infer W base context) [ClassDef r] Stop
       ∧ r ≠ klass ∧ known r.

(** The flags in the state are those of the hierarchy. *)
Definition coherent (st : State) : Prop :=
  ∀ klass b, _all_bases_known st !! klass = Some b → (b = true ↔ known klass).

(** The class hierarchy is well founded, loops from a class to itself
    apart: [rank] decreases from a class to the classes of its bases. *)
Definition ranked (rank : node → nat) : Prop :=
  ∀ klass base r,
    base ∈ bases W klass →
    produces (infer W base context) [ClassDef r] Stop →
    r ≠ klass →
    rank r < rank klass.

(** The bases of [klass] that are checked first pass the four checks, and
    the base that follows them resolves to the single class [r], other
    than [klass]: the call for [klass] comes to the call for [r]. *)
Definition leads_to (klass r : node) : Prop :=
  ∃ pre base rest,
    bases W klass = pre ++ base :: rest
    ∧ Forall (base_passes klass) pre
    ∧ produces (infer W base context) [ClassDef r] Stop
    ∧ r ≠ klass.

(** The classes of [family] inherit from each other: each of them leads to
    one of them. *)
Definition entangled (family : node → Prop) : Prop :=
  ∀ klass, family klass → ∃ r, family r ∧ leads_to klass r.

(** No class of [family] has a flag. *)
Definition unflagged (family : node → Prop) (st : State) : Prop :=
  ∀ klass, family klass → _all_bases_known st !! klass = None.

End Known.

(** ** The type of a candidate *)

Section TypeOf.

Context (W : World).

(** The name of the class that is built for a candidate, if one is. *)
Definition proxy_name (v : value) : option string :=
  match v with
  | Lambda root_name =>
      Some (if String.eqb root_name (BUILTINS W)
            then "builtin_function_or_method" else "function")
  | BoundMethod _ => Some (if PY2 W then "instancemethod" else "method")
  | UnboundMethod _ => Some (if PY2 W then "instancemethod" else "function")
  | Module => Some "module"
  | _ => None
  end.

(** The type of a candidate for which no class is built. *)
Definition declared_type (v : value) : ref :=
  match v with
  | ClassDef c =>
      Definite (Klass (default (builtins_type W) (metaclass W c)))
  | _ => _proxied v
  end.

Definition with_proxy (cls_name : string) (st : State) : State :=
  {| _all_bases_known := _all_bases_known st;
     built := built st ++ [{| name := cls_name;
                              parent := Some (builtins_module W) |}];
     pulls := pulls st |}.

(** The type of one candidate, and the state after it was determined. *)
Definition type_of (v : value) (st : State) : ref * State :=
  match proxy_name v with
  | Some cls_name =>
      (Definite (Proxy (length (built st))), with_proxy cls_name st)
  | None => (declared_type v, st)
  end.

(** The types of the candidates [vs], each requested and then typed. *)
Fixpoint types_of (vs : list value) (st : State) : list ref * State :=
  match vs with
  | [] => ([], st)
  | v :: vs =>
      let '(t, st1) := type_of v (tick st) in
      let '(ts, st2) := types_of vs st1 in
      (t :: ts, st2)
  end.

End TypeOf.

(** ** Candidates of the index protocol *)

(** A [Const] whose value is an [int]. *)
Definition int_const (v : value) : bool :=
  match v with
  | Const c _ => isinstance_int c
  | _ => false
  end.

(** A candidate for [__index__] that gives no result: it is no bound
    method, or its call results end cleanly without an [int] constant. *)
Definition barren (W : World) (n : node) (context : InferenceContext)
    (v : value) : Prop :=
  match v with
  | BoundMethod m =>
      ∃ rs, produces (infer_call_result W m n context) rs Stop
            ∧ Forall (λ r, int_const r = false) rs
  | _ => True
  end.

(** The context [class_instance_as_index] makes for [n]. *)
Definition index_context (n : node) : InferenceContext :=
  {| callcontext := Some {| args := [n] |} |}.

(** A candidate for [__index__] that gives no result within the budget
    [F] of the loop over its call results. *)
Definition barren_within (W : World) (n : node) (F : nat) (v : value)
    : Prop :=
  match v with
  | BoundMethod m =>
      ∃ rs, produces (infer_call_result W m n (index_context n)) rs Stop
            ∧ Forall (λ r, int_const r = false) rs ∧ length rs < F
  | _ => True
  end.

(** What follows the candidates [pre] for [__index__] decides the result
    [res]: the candidates end there, cleanly or with a failure, or the
    next one is a bound method whose call results, after some that are no
    [int] constants, give an [int] constant or fail. *)
Definition index_end (W : World) (n : node) (pre : list value)
    (res : option value) : Prop :=
  let context := index_context n in
  let g := igetattr W n "__index__" context in
  (g (length pre) = Stop ∧ res = None)
  ∨ (g (length pre) = Error ∧ res = None)
  ∨ (∃ m rs,
       g (length pre) = Yield (BoundMethod m)
       ∧ yields (infer_call_result W m n context) 0 rs
       ∧ Forall (λ r, int_const r = false) rs
       ∧ ((∃ r, infer_call_result W m n context (length rs) = Yield r
                ∧ int_const r = true ∧ res = Some r)
          ∨ (infer_call_result W m n context (length rs) = Error
             ∧ res = None))).

(** ** The answer of the subtype check *)

(** The answer of [_type_check type1 type2] from the flags of the two
    classes. *)
Definition verdict (W : World) (type1 type2 : node) (k1 k2 : bool)
    : or_YES bool :=
  if negb (k1 && k2) then YES
  else if negb (newstyle W type1 && newstyle W type2) then Definite false
  else match mro W type2 with
       | Some order => Definite (bool_decide (type1 ∈ removelast order))
       | None => YES
       end.

(** ** Calls one after the other *)

(** One call of a public operation takes the state [st] to [st']. *)
Inductive call (W : World) (st st' : State) : Prop :=
| call_safe_infer n context o :
    safe_infer W n context st = Some (o, st') → call W st st'
| call_object_type fuel n context o :
    object_type W fuel n context st = Some (o, st') → call W st st'
| call_has_known_bases fuel klass context o :
    has_known_bases W fuel klass context st = Some (o, st') → call W st st'
| call_is_subtype fuel type1 type2 o :
    is_subtype W fuel type1 type2 st = Some (o, st') → call W st st'
| call_is_supertype fuel type1 type2 o :
    is_supertype W fuel type1 type2 st = Some (o, st') → call W st st'
| call_class_instance_as_index fuel n o :
    class_instance_as_index W fuel n st = Some (o, st') → call W st st'.

(** [st'] is reached from [st] by a sequence of calls. *)
Definition later (W : World) : relation State := rtc (call W).

(** ** Sample programs *)

(** The generator that yields the candidates [vs] and ends with [e]. *)
Definition of_list (vs : list value) (e : event) : gen :=
  λ i, match vs !! i with
       | Some v => Yield v
       | None => e
       end.

Module Sample.

(** The classes of
<<
    class Base: pass
    class Derived(Base): pass
    class A(B): pass
    class B(A): pass
    class C(A, 1): pass
    class Cyclic(Cyclic): pass
>>
    and [object]. *)
Definition object_ : node := 0.
Definition Base : node := 1.
Definition Derived : node := 2.
Definition A : node := 3.
Definition B : node := 4.
Definition C : node := 5.
Definition type_ : node := 6.
Definition int_ : node := 7.
Definition builtins_ : node := 8.
Definition Cyclic : node := 9.

(** The expressions that stand for the bases: the names [Base], [A],
    [B] and [Cyclic], and the constant [1]. *)
Definition Base_name : node := 10.
Definition A_name : node := 11.
Definition B_name : node := 12.
Definition one_const : node := 13.
Definition Cyclic_name : node := 14.

(** Further nodes: a name bound to a bound method [f], a name bound to
    a lambda of the built-ins, a name with no candidate at all, an
    instance whose [__index__] method [f] returns [42], a name whose
    inference fails after a first candidate, and a name bound to either
    of two lambdas of a module [helpers]. *)
Definition method_name : node := 20.
Definition lambda_name : node := 21.
Definition empty_name : node := 22.
Definition instance : node := 23.
Definition broken_name : node := 24.
Definition two_lambdas : node := 25.
Definition f : nat := 0.

(** The resolution order of C3: the class, then its ancestors up to
    [object]. *)
Definition c3 (klass : node) : option (list node) :=
  match klass with
  | 0 => Some [object_]
  | 1 => Some [Base; object_]
  | 2 => Some [Derived; Base; object_]
  | _ => None
  end.

(** The same orders read from [object] to the class. *)
Definition root_first (klass : node) : option (list node) :=
  reverse <$> c3 klass.

Definition world (py2 : bool) (order : node → option (list node)) : World :=
  {| PY2 := py2;
     infer := λ n _,
       match n with
       | 10 => of_list [ClassDef Base] Stop
       | 11 => of_list [ClassDef A] Stop
       | 12 => of_list [ClassDef B] Stop
       | 13 => of_list [Const (PyInt 1) (Definite (Klass int_))] Stop
       | 14 => of_list [ClassDef Cyclic] Stop
       | 20 => of_list [BoundMethod f] Stop
       | 21 => of_list [Lambda (if py2 then "__builtin__" else "builtins")]
                 Stop
       | 22 => of_list [] Stop
       | 24 => of_list [ClassDef Base] Error
       | 25 => of_list [Lambda "helpers"; Lambda "helpers"] Stop
       | _ => of_list [] Error
       end;
     igetattr := λ n attr _,
       match n with
       | 23 => if String.eqb attr "__index__"
               then of_list [Instance (Definite (Klass int_)); BoundMethod f]
                      Stop
               else of_list [] Error
       | _ => of_list [] Error
       end;
     infer_call_result := λ m _ _,
       match m with
       | 0 => of_list [Const (PyStr "42") YES;
                       Const (PyInt 42) (Definite (Klass int_))] Stop
       | _ => of_list [] Error
       end;
     bases := λ klass,
       match klass with
       | 2 => [Base_name]
       | 3 => [B_name]
       | 4 => [A_name]
       | 5 => [A_name; one_const]
       | 9 => [Cyclic_name]
       | _ => []
       end;
     newstyle := λ _, true;
     metaclass := λ _, None;
     mro := order;
     builtins_module := builtins_;
     builtins_type := type_ |}.

(** The program without the classes [A], [B], [C] and [Cyclic], and the
    height of its classes in the hierarchy. *)
Definition acyclic : World :=
  let W := world false c3 in
  {| PY2 := PY2 W;
     infer := infer W;
     igetattr := igetattr W;
     infer_call_result := infer_call_result W;
     bases := λ klass, match klass with 2 => [Base_name] | _ => [] end;
     newstyle := newstyle W;
     metaclass := metaclass W;
     mro := mro W;
     builtins_module := builtins_module W;
     builtins_type := builtins_type W |}.

Definition height (klass : node) : nat :=
  match klass with
  | 2 => 1
  | _ => 0
  end.

End Sample.

(** ** What a call leaves of the state *)

(** The names of the classes that are built. *)
Definition proxy_names : list string :=
  ["function"; "builtin_function_or_method"; "method"; "instancemethod";
   "module"].

(** [st'] is [st] after some candidates were requested. *)
Definition quiet (st st' : State) : Prop :=
  _all_bases_known st' = _all_bases_known st
  ∧ built st' = built st
  ∧ pulls st ≤ pulls st'.

(** [st'] is [st] after some candidates were requested and some flags
    were set, for classes that had none. *)
Definition flagged (st st' : State) : Prop :=
  _all_bases_known st ⊆ _all_bases_known st'
  ∧ built st' = built st
  ∧ pulls st ≤ pulls st'.

(** [st'] is [st] after some candidates were requested and some classes
    were built, each a child of the module of the built-ins and named by
    one of [proxy_names]. *)
Definition grown (W : World) (st st' : State) : Prop :=
  _all_bases_known st' = _all_bases_known st
  ∧ pulls st ≤ pulls st'
  ∧ ∃ added,
      built st' = built st ++ added
      ∧ Forall (λ c, parent c = Some (builtins_module W)
                     ∧ name c ∈ proxy_names) added.

(** A class is built for the candidate. *)
Definition builds (W : World) (v : value) : bool :=
  match proxy_name W v with
  | Some _ => true
  | None => false
  end.

(** ** More sample programs *)

Module Variants.

(** A name bound to an instance of [int] or to the constant [1]. *)
Definition int_or_one : node := 30.


(** The program of [Sample] with the bases of [C] in the other order and
    the class [D],
<<
    class C(1, A): pass
    class D(empty_name): pass
>>
    and the name [int_or_one]. *)
Definition world : World :=
  let W := Sample.world false Sample.c3 in
  {| PY2 := PY2 W;
     infer := λ n context,
       match n with
       | 30 => of_list [Instance (Definite (Klass Sample.int_));
                        Const (PyInt 1) (Definite (Klass Sample.int_))] Stop
       | _ => infer W n context
       end;
     igetattr := igetattr W;
     infer_call_result := infer_call_result W;
     bases := λ klass,
       match klass with
       | 5 => [Sample.one_const; Sample.A_name]
       | 31 => [Sample.empty_name]
       | _ => bases W klass
       end;
     newstyle := newstyle W;
     metaclass := metaclass W;
     mro := mro W;
     builtins_module := builtins_module W;
     builtins_type := builtins_type W |}.

End Variants.

(** * Properties *)

Ltac run :=
  unfold mbind, M_bind, mret, M_ret, bind, try_except, next, ret, raise,
    out_of_fuel in *.

Section SafeInfer.

Context (W : World).

Lemma safe_infer_run n context st :
  safe_infer W n context st
  = Some (single (infer W n context),
          Nat.iter (drawn (infer W n context)) tick st).
Proof.
  unfold safe_infer, single, drawn. run.
  destruct (infer W n context 0); [|done..].
  by destruct (infer W n context 1).
Qed.

End SafeInfer.

(** ** The loop over the bases *)

Section Bases.

Context (W : World) (context : option InferenceContext).

Local Abbreviation cache := _all_bases_known.

Lemma bases_loop_nil rec klass st :
  bases_loop W rec klass context [] st
  = Some (Return true, store_known klass true st).
Proof. done. Qed.

Lemma bases_loop_cons rec klass base bs st :
  bases_loop W rec klass context (base :: bs) st
  = let g := infer W base context in
    let st1 := Nat.iter (drawn g) tick st in
    match single g with
    | Raise e => Some (Raise e, st1)
    | Return (Some (ClassDef r)) =>
        if bool_decide (r = klass)
        then Some (Return false, store_known klass false st1)
        else match rec r st1 with
             | Some (Return true, st2) =>
                 bases_loop W rec klass context bs st2
             | Some (Return false, st2) =>
                 Some (Return false, store_known klass false st2)
             | Some (Raise e, st2) => Some (Raise e, st2)
             | None => None
             end
    | Return _ => Some (Return false, store_known klass false st1)
    end.
Proof.
  cbn [bases_loop]. run. rewrite safe_infer_run.
  destruct (single (infer W base context)) as [[[]|]|]; try done.
  unfold set_all_bases_known. case_bool_decide; [done|].
  destruct (rec c _) as [[[[]|] ?]|]; done.
Qed.

Lemma has_known_bases_S fuel klass st :
  has_known_bases W (S fuel) klass context st
  = match cache st !! klass with
    | Some b => Some (Return b, st)
    | None =>
        bases_loop W (λ r, has_known_bases W fuel r context) klass context
          (bases W klass) st
    end.
Proof.
  cbn [has_known_bases]. run. unfold get_all_bases_known.
  by destruct (cache st !! klass).
Qed.

Lemma iter_tick_cache n st : cache (Nat.iter n tick st) = cache st.
Proof. induction n; simpl; congruence. Qed.

Lemma iter_tick_built n st : built (Nat.iter n tick st) = built st.
Proof. induction n; simpl; congruence. Qed.

Lemma iter_tick_pulls n st : pulls (Nat.iter n tick st) = n + pulls st.
Proof. induction n; simpl; congruence. Qed.

(** A run only adds flags, for classes that had none. *)
Lemma bases_loop_frame rec klass (m0 : gmap node bool) bs :
  m0 !! klass = None →
  (∀ r st o st', m0 ⊆ cache st → rec r st = Some (o, st') →
                 m0 ⊆ cache st' ∧ built st' = built st
                 ∧ pulls st ≤ pulls st') →
  ∀ st o st', m0 ⊆ cache st →
    bases_loop W rec klass context bs st = Some (o, st') →
    m0 ⊆ cache st' ∧ built st' = built st ∧ pulls st ≤ pulls st'.
Proof.
  intros Hk Hrec.
  assert (Hins : ∀ b (m : gmap node bool), m0 ⊆ m → m0 ⊆ <[klass:=b]> m).
  { intros b m Hm. by apply insert_subseteq_r. }
  induction bs as [|base bs IH]; intros st o st' Hst.
  - rewrite bases_loop_nil. intros [= <- <-]. simpl. auto.
  - rewrite bases_loop_cons. cbn zeta.
    set (st1 := Nat.iter _ tick st).
    assert (H1 : m0 ⊆ cache st1 ∧ built st1 = built st
                 ∧ pulls st ≤ pulls st1).
    { unfold st1. rewrite iter_tick_cache, iter_tick_built, iter_tick_pulls.
      split_and!; [done..|lia]. }
    destruct H1 as (Hc1 & Hb1 & Hp1).
    destruct (single _) as [[[r| | | | | | |]|]|e];
      try (intros [= <- <-]; simpl; split_and!; auto).
    case_bool_decide.
    { intros [= <- <-]; simpl; split_and!; auto. }
    destruct (rec r st1) as [[[[]|e] st2]|] eqn:Er; [| | |done].
    + destruct (Hrec _ _ _ _ Hc1 Er) as (Hc2 & Hb2 & Hp2).
      intros Hl. destruct (IH _ _ _ Hc2 Hl) as (? & ? & ?).
      split_and!; [done|congruence|lia].
    + destruct (Hrec _ _ _ _ Hc1 Er) as (Hc2 & Hb2 & Hp2).
      intros [= <- <-]; simpl. split_and!; [auto|congruence|lia].
    + destruct (Hrec _ _ _ _ Hc1 Er) as (Hc2 & Hb2 & Hp2).
      intros [= <- <-]. split_and!; [auto|congruence|lia].
Qed.

Lemma has_known_bases_frame fuel (m0 : gmap node bool) klass st o st' :
  m0 ⊆ cache st →
  has_known_bases W fuel klass context st = Some (o, st') →
  m0 ⊆ cache st' ∧ built st' = built st ∧ pulls st ≤ pulls st'.
Proof.
  revert klass st o st'.
  induction fuel as [|fuel IH]; intros klass st o st' Hst; [done|].
  rewrite has_known_bases_S.
  destruct (cache st !! klass) as [b|] eqn:Ek.
  - intros [= <- <-]. auto.
  - apply bases_loop_frame; [|by eauto|done].
    destruct (m0 !! klass) eqn:E0; [|done].
    eapply lookup_weaken in E0; [|done]. congruence.
Qed.

(** The answer is in the flag of the class when the call returns. *)
Lemma bases_loop_written rec klass bs st b st' :
  bases_loop W rec klass context bs st = Some (Return b, st') →
  cache st' !! klass = Some b.
Proof.
  revert st. induction bs as [|base bs IH]; intros st.
  - rewrite bases_loop_nil. intros [= <- <-]. apply lookup_insert_eq.
  - rewrite bases_loop_cons. cbn zeta.
    destruct (single _) as [[[r| | | | | | |]|]|e];
      try (intros [= <- <-]; apply lookup_insert_eq).
    case_bool_decide.
    { intros [= <- <-]; apply lookup_insert_eq. }
    destruct (rec r _) as [[[[]|e] st2]|]; [| |done..].
    + apply IH.
    + intros [= <- <-]; apply lookup_insert_eq.
Qed.

Lemma has_known_bases_written fuel klass st b st' :
  has_known_bases W fuel klass context st = Some (Return b, st') →
  cache st' !! klass = Some b.
Proof.
  destruct fuel as [|fuel]; [done|]. rewrite has_known_bases_S.
  destruct (cache st !! klass) as [b'|] eqn:Ek.
  - by intros [= <- <-].
  - apply bases_loop_written.
Qed.

Lemma has_known_bases_cached fuel klass st b :
  cache st !! klass = Some b →
  has_known_bases W (S fuel) klass context st = Some (Return b, st).
Proof. intros Hk. by rewrite has_known_bases_S, Hk. Qed.

(** [all(map(has_known_bases, (type1, type2)))] from what the calls of
    [has_known_bases] do. *)
Lemma all_known_bases_run fuel type1 type2 st :
  all_known_bases W fuel type1 type2 st
  = match has_known_bases W fuel type1 None st with
    | Some (Return k1, st1) =>
        if PY2 W || k1 then
          match has_known_bases W fuel type2 None st1 with
          | Some (Return k2, st2) => Some (Return (k1 && k2), st2)
          | Some (Raise e, st2) =>
              if negb (PY2 W) && bool_decide (e = StopIteration)
              then Some (Return true, st2) else Some (Raise e, st2)
          | None => None
          end
        else Some (Return false, st1)
    | Some (Raise e, st1) =>
        if negb (PY2 W) && bool_decide (e = StopIteration)
        then Some (Return true, st1) else Some (Raise e, st1)
    | None => None
    end.
Proof.
  unfold all_known_bases. run. destruct (PY2 W); simpl.
  - destruct (has_known_bases W fuel type1 None st)
      as [[[k1|e] st1]|]; [|done..].
    by destruct (has_known_bases W fuel type2 None st1) as [[[k2|e] st2]|].
  - destruct (has_known_bases W fuel type1 None st)
      as [[[[]|e] st1]|]; [|done| |done].
    + by destruct (has_known_bases W fuel type2 None st1)
        as [[[[]|[]] st2]|].
    + by destruct e.
Qed.

(** [_type_check] from [all(map(has_known_bases, (type1, type2)))]. *)
Lemma _type_check_verdict fuel type1 type2 st :
  _type_check W fuel type1 type2 st
  = match all_known_bases W fuel type1 type2 st with
    | Some (Return known, st') =>
        Some (Return (verdict W type1 type2 known known), st')
    | Some (Raise e, st') => Some (Raise e, st')
    | None => None
    end.
Proof.
  unfold _type_check, call_mro, verdict. run.
  destruct (all_known_bases W fuel type1 type2 st)
    as [[[[]|e] st']|]; try done.
  cbn [andb negb]. destruct (negb _); [done|]. by destruct (mro W type2).
Qed.

(** The state after [_type_check] is the state after the calls of
    [has_known_bases] it makes: one for the first class, and then one for
    the second or none. *)
Lemma _type_check_steps fuel type1 type2 st o st' :
  _type_check W fuel type1 type2 st = Some (o, st') →
  (∃ o1, has_known_bases W fuel type1 None st = Some (o1, st'))
  ∨ (∃ k1 st1 o2,
       has_known_bases W fuel type1 None st = Some (Return k1, st1)
       ∧ has_known_bases W fuel type2 None st1 = Some (o2, st')).
Proof.
  unfold _type_check. unfold mbind, M_bind, bind at 1.
  rewrite all_known_bases_run.
  assert (Hrest : ∀ known s,
    (if negb known then mret YES
     else if negb (newstyle W type1 && newstyle W type2)
          then mret (Definite false)
          else try_except
                 (order ← call_mro W type2;
                  mret (Definite (bool_decide (type1 ∈ removelast order))))
                 (λ e, match e with
                       | MroError => Some (mret YES)
                       | _ => None
                       end)) s = Some (o, st') → s = st').
  { intros known s. unfold call_mro. run.
    destruct (negb known); [by intros [= _ <-]|].
    destruct (negb _); [by intros [= _ <-]|].
    by destruct (mro W type2); intros [= _ <-]. }
  destruct (has_known_bases W fuel type1 None st)
    as [[[k1|e] st1]|] eqn:E1; [| |done].
  - destruct (PY2 W || k1).
    + destruct (has_known_bases W fuel type2 None st1)
        as [[[k2|e] st2]|] eqn:E2; [| |done].
      * intros <-%Hrest. right. eauto.
      * destruct (negb (PY2 W) && bool_decide (e = StopIteration)).
        -- intros <-%Hrest. right. eauto.
        -- intros [= _ <-]. right. eauto.
    + intros <-%Hrest. left. eauto.
  - destruct (negb (PY2 W) && bool_decide (e = StopIteration)).
    + intros <-%Hrest. left. eauto.
    + intros [= _ <-]. left. eauto.
Qed.

End Bases.


(** ** The flag of a class against the class hierarchy *)

Lemma single_Some (g : gen) v :
  single g = Return (Some v) ↔ produces g [v] Stop.
Proof.
  unfold single, produces. cbn [yields length]. split.
  - destruct (g 0); [destruct (g 1) eqn:E1|..]; intros [= <-]; by split_and!.
  - intros ((-> & _) & ->). done.
Qed.

Section Sound.

Context (W : World) (context : option InferenceContext).

Local Abbreviation cache := _all_bases_known.

Lemma base_class_Some base r :
  base_class W context base = Some r
  ↔ single (infer W base context) = Return (Some (ClassDef r)).
Proof.
  unfold base_class.
  destruct (single _) as [[[]|]|]; split; congruence.
Qed.

Lemma known_at_S d klass :
  known_at W context d klass = true → known_at W context (S d) klass = true.
Proof.
  revert klass. induction d as [|d IH]; intros klass; [done|].
  intros H. change (known_at W context (S (S d)) klass) with
    (forallb (λ base, match base_class W context base with
                      | Some r => negb (bool_decide (r = klass))
                                  && known_at W context (S d) r
                      | None => false
                      end) (bases W klass)).
  cbn [known_at] in H.
  rewrite forallb_forall in *. intros base Hin. specialize (H base Hin).
  destruct (base_class W context base) as [r|]; [|done].
  apply andb_true_iff in H as [-> H]. by rewrite (IH _ H).
Qed.

Lemma known_at_le d d' klass :
  d ≤ d' →
  known_at W context d klass = true → known_at W context d' klass = true.
Proof. induction 1; auto using known_at_S. Qed.

Lemma base_passes_at klass (l : list node) :
  Forall (base_passes W context klass) l →
  ∃ d, ∀ base, base ∈ l →
    ∃ r, base_class W context base = Some r ∧ r ≠ klass
         ∧ known_at W context d r = true.
Proof.
  induction 1 as [|base l (r & Hr & Hne & d1 & Hd1) _ (d2 & IH)].
  - exists 0. by intros base ?%elem_of_nil.
  - exists (d1 `max` d2). intros base' [->|Hin]%elem_of_cons.
    + exists r. split_and!; [by apply base_class_Some, single_Some|done|].
      eapply known_at_le; [|done]. lia.
    + destruct (IH _ Hin) as (r' & ? & ? & ?). exists r'. split_and!; [done..|].
      eapply known_at_le; [|done]. lia.
Qed.

(** The bases of a class are known when each of them passes the checks. *)
Lemma known_bases klass :
  known W context klass ↔ Forall (base_passes W context klass) (bases W klass).
Proof.
  split.
  - intros [[|d] Hd]; [done|]. cbn [known_at] in Hd.
    rewrite forallb_forall in Hd. apply Forall_forall. intros base Hin.
    apply list_elem_of_In in Hin. specialize (Hd _ Hin).
    destruct (base_class W context base) as [r|] eqn:Er; [|done].
    apply andb_true_iff in Hd as [Hne Hd]. exists r. split_and!.
    + by apply single_Some, base_class_Some.
    + apply negb_true_iff, bool_decide_eq_false in Hne. done.
    + by exists d.
  - intros (d & Hd)%base_passes_at. exists (S d).
    cbn [known_at]. apply forallb_forall. intros base Hin.
    apply list_elem_of_In in Hin. destruct (Hd _ Hin) as (r & -> & Hne & ->).
    rewrite andb_true_r. by apply negb_true_iff, bool_decide_eq_false.
Qed.

Lemma coherent_empty : coherent W context empty_state.
Proof. intros klass b. simpl. by rewrite lookup_empty. Qed.

Lemma coherent_ticks n st :
  coherent W context st → coherent W context (Nat.iter n tick st).
Proof. unfold coherent. by rewrite iter_tick_cache. Qed.

Lemma coherent_store klass b st :
  coherent W context st → (b = true ↔ known W context klass) →
  coherent W context (store_known klass b st).
Proof.
  intros Hst Hb klass' b'. simpl.
  destruct (decide (klass = klass')) as [<-|Hne].
  - rewrite lookup_insert_eq. by intros [= <-].
  - rewrite lookup_insert_ne by done. apply Hst.
Qed.

Lemma bases_loop_sound rec klass :
  (∀ r st o st', coherent W context st → rec r st = Some (o, st') →
     coherent W context st'
     ∧ ∀ b, o = Return b → (b = true ↔ known W context r)) →
  ∀ bs pre st o st',
    bases W klass = pre ++ bs → Forall (base_passes W context klass) pre →
    coherent W context st →
    bases_loop W rec klass context bs st = Some (o, st') →
    coherent W context st'
    ∧ ∀ b, o = Return b → (b = true ↔ known W context klass).
Proof.
  intros Hrec. induction bs as [|base bs IH]; intros pre st o st' Hb Hpre Hst.
  - rewrite app_nil_r in Hb. rewrite bases_loop_nil. intros [= <- <-].
    assert (known W context klass) by (apply known_bases; by rewrite Hb).
    split; [apply coherent_store; [done|tauto]|].
    intros b [= <-]. tauto.
  - rewrite bases_loop_cons. cbn zeta.
    set (st1 := Nat.iter _ tick st).
    assert (Hst1 : coherent W context st1) by by apply coherent_ticks.
    assert (Hbase : known W context klass → base_passes W context klass base).
    { intros Hk%known_bases. rewrite Hb in Hk.
      by apply Forall_app in Hk as [_ [? _]%Forall_cons]. }
    assert (Hno : ¬ base_passes W context klass base →
              coherent W context (store_known klass false st1)
              ∧ ∀ b, Return false = Return b →
                     (b = true ↔ known W context klass)).
    { intros Hn. split.
      - apply coherent_store; [done|]. split; [done|tauto].
      - intros b [= <-]. split; [done|tauto]. }
    destruct (single (infer W base context)) as [[v|]|e] eqn:Es.
    + destruct v as [r| | | | | | |];
        try (intros [= <- <-]; apply Hno; intros (r' & Hs%single_Some & _);
             by rewrite Es in Hs).
      case_bool_decide as Hr.
      { intros [= <- <-]. apply Hno. intros (r' & Hs%single_Some & ? & _).
        rewrite Es in Hs. by simplify_eq. }
      destruct (rec r st1) as [[[[]|e] st2]|] eqn:Er; [| | |done].
      * destruct (Hrec _ _ _ _ Hst1 Er) as [Hst2 Hk]. intros Hl.
        eapply (IH (pre ++ [base])); [by rewrite <-app_assoc| |done..].
        apply Forall_app. split; [done|]. apply Forall_singleton.
        exists r. split_and!; [by apply single_Some|done|].
        by apply (Hk true).
      * destruct (Hrec _ _ _ _ Hst1 Er) as [Hst2 Hk]. intros [= <- <-].
        assert (¬ known W context klass).
        { intros (r' & Hs%single_Some & _ & Hr')%Hbase. rewrite Es in Hs.
          simplify_eq. by apply (Hk false eq_refl) in Hr'. }
        split; [apply coherent_store; [done|]|intros b [= <-]];
          (split; [done|tauto]).
      * destruct (Hrec _ _ _ _ Hst1 Er) as [Hst2 _]. intros [= <- <-].
        split; [done|]. intros b [=].
    + intros [= <- <-]. apply Hno. intros (r' & Hs%single_Some & _).
      by rewrite Es in Hs.
    + intros [= <- <-]. split; [done|]. intros b [=].
Qed.

(** In a state whose flags are those of the hierarchy, a call leaves such a
    state, and what it returns is whether the bases of the class are
    known. *)
Lemma has_known_bases_sound fuel klass st o st' :
  coherent W context st →
  has_known_bases W fuel klass context st = Some (o, st') →
  coherent W context st'
  ∧ ∀ b, o = Return b → (b = true ↔ known W context klass).
Proof.
  revert klass st o st'.
  induction fuel as [|fuel IH]; intros klass st o st' Hst; [done|].
  rewrite has_known_bases_S.
  destruct (cache st !! klass) as [b|] eqn:Ek.
  - intros [= <- <-]. split; [done|]. intros b' [= <-]. by apply Hst.
  - apply (bases_loop_sound _ _ (λ r, IH r) _ []); [done|constructor|done].
Qed.

End Sound.

(** ** When [has_known_bases] returns *)

Section Returns.

Context (W : World) (context : option InferenceContext).

Local Abbreviation cache := _all_bases_known.

Lemma single_Raise (g : gen) e : single g = Raise e → g 0 = Stop.
Proof. unfold single. by destruct (g 0); [destruct (g 1)|..]. Qed.

Lemma bases_loop_returns rec klass :
  (∀ base, base ∈ bases W klass → infer W base context 0 ≠ Stop) →
  (∀ base r, base ∈ bases W klass → base_class W context base = Some r →
             r ≠ klass → ∀ st, ∃ b st', rec r st = Some (Return b, st')) →
  ∀ bs, bs ⊆ bases W klass →
    ∀ st, ∃ b st',
      bases_loop W rec klass context bs st = Some (Return b, st').
Proof.
  intros Hne Hrec. induction bs as [|base bs IH]; intros Hbs st.
  - rewrite bases_loop_nil. eauto.
  - rewrite bases_loop_cons. cbn zeta.
    assert (Hin : base ∈ bases W klass) by (apply Hbs; left).
    destruct (single (infer W base context)) as [[v|]|e] eqn:Es.
    + destruct v as [r| | | | | | |]; eauto.
      case_bool_decide; [eauto|].
      edestruct (Hrec base r) as (b & st2 & ->); [done| |done|].
      { by apply base_class_Some. }
      destruct b; [|eauto]. apply IH. set_solver.
    + eauto.
    + apply single_Raise in Es. by apply Hne in Es.
Qed.

(** In a well-founded hierarchy whose bases never give an empty sequence
    of candidates, a budget above the rank of the class is enough. *)
Lemma has_known_bases_returns rank fuel klass st :
  ranked W context rank →
  (∀ klass base, base ∈ bases W klass → infer W base context 0 ≠ Stop) →
  rank klass < fuel →
  ∃ b st', has_known_bases W fuel klass context st = Some (Return b, st').
Proof.
  intros Hrank Hne. revert klass st.
  induction fuel as [|fuel IH]; intros klass st Hlt; [lia|].
  rewrite has_known_bases_S. destruct (cache st !! klass); [eauto|].
  apply bases_loop_returns; [by eauto| |done].
  intros base r Hin Hr%base_class_Some%single_Some Hneq st1. apply IH.
  specialize (Hrank klass base r Hin Hr Hneq). lia.
Qed.

(** A class whose bases are known within [d] levels is found so with a
    budget of [d]. *)
Lemma has_known_bases_known d klass st :
  coherent W context st → known_at W context d klass = true →
  ∃ st', has_known_bases W d klass context st = Some (Return true, st').
Proof.
  revert klass st. induction d as [|d IH]; intros klass st Hst Hd; [done|].
  rewrite has_known_bases_S.
  destruct (cache st !! klass) as [b|] eqn:Ek.
  - assert (b = true) as ->; [|eauto]. apply (Hst _ _ Ek). by exists (S d).
  - cbn [known_at] in Hd. clear Ek. revert st Hst.
    induction (bases W klass) as [|base bs IHbs]; intros st Hst.
    + rewrite bases_loop_nil. eauto.
    + rewrite bases_loop_cons. cbn zeta. cbn [forallb] in Hd.
      apply andb_true_iff in Hd as [Hbase Hbs].
      destruct (base_class W context base) as [r|] eqn:Er; [|done].
      apply base_class_Some in Er. rewrite Er.
      apply andb_true_iff in Hbase as [Hne Hr].
      apply negb_true_iff in Hne. rewrite Hne.
      set (st1 := Nat.iter _ tick st).
      assert (Hst1 : coherent W context st1) by by apply coherent_ticks.
      destruct (IH r st1 Hst1 Hr) as (st2 & E2). rewrite E2.
      apply IHbs; [done|].
      by destruct (has_known_bases_sound _ _ _ _ _ _ _ Hst1 E2).
Qed.

End Returns.

(** ** The type of a node *)

Section ObjectType.

Context (W : World).

Lemma alter_snoc {A} (f : A → A) (l : list A) x :
  alter f (length l) (l ++ [x]) = l ++ [f x].
Proof. rewrite alter_app_r_alt by done. by rewrite Nat.sub_diag. Qed.

Lemma _build_proxy_class_run cls_name st :
  _build_proxy_class cls_name (builtins_module W) st
  = Some (Return (length (built st)), with_proxy W cls_name st).
Proof.
  unfold _build_proxy_class, build_class, set_parent, with_proxy. run.
  cbn [built _all_bases_known pulls]. by rewrite alter_snoc.
Qed.

(** One pull on the generator [_object_type]. *)
Lemma _object_type_run n context i st :
  _object_type W n context i st
  = match infer W n (Some (default {| callcontext := None |} context)) i with
    | Yield v =>
        let '(t, st') := type_of W v (tick st) in Some (Return t, st')
    | Stop => Some (Raise StopIteration, tick st)
    | Error => Some (Raise InferenceError, tick st)
    end.
Proof.
  unfold _object_type, _function_type, type_of. run.
  replace (match context with Some c => c | None => _ end)
    with (default {| callcontext := None |} context) by by destruct context.
  destruct (infer W n _ i) as [v| |]; [|done..].
  destruct v; simpl; unfold with_proxy; simpl; rewrite ?alter_snoc;
    try done.
  - by destruct (metaclass W c).
  - by destruct (String.eqb _ _); simpl; rewrite alter_snoc.
  - by destruct (PY2 W); simpl; rewrite alter_snoc.
  - by destruct (PY2 W); simpl; rewrite alter_snoc.
Qed.

(** [set] over the generator, for a sequence of candidates that ends. *)
Lemma set_of_object_type n context vs e fuel :
  let g := infer W n (Some (default {| callcontext := None |} context)) in
  ∀ i acc st,
    yields g i vs → g (i + length vs) = e → length vs < fuel →
    set_of fuel (_object_type W n context) i acc st
    = let '(ts, st') := types_of W vs st in
      match e with
      | Yield _ => set_of (fuel - length vs) (_object_type W n context)
                     (i + length vs) (acc ∪ list_to_set ts) st'
      | Stop => Some (Return (acc ∪ list_to_set ts), tick st')
      | Error => Some (Raise InferenceError, tick st')
      end.
Proof.
  intros g. revert fuel.
  induction vs as [|v vs IH]; intros fuel i acc st Hy He Hf.
  - cbn [types_of length] in *. rewrite Nat.add_0_r in *.
    rewrite list_to_set_nil, (right_id_L ∅ (∪)).
    destruct fuel as [|fuel]; [lia|].
    destruct e as [v| |]; [by rewrite Nat.sub_0_r|..];
      cbn [set_of]; run; rewrite _object_type_run; fold g; by rewrite He.
  - destruct Hy as [Hv Hy]. cbn [length] in *.
    destruct fuel as [|fuel]; [lia|].
    cbn [set_of types_of]. run. rewrite _object_type_run. fold g.
    rewrite Hv. destruct (type_of W v (tick st)) as [t st1].
    rewrite (IH fuel (S i) (acc ∪ {[t]}) st1 Hy);
      [|by rewrite <-He; f_equal; lia|lia].
    destruct (types_of W vs st1) as [ts st2].
    rewrite list_to_set_cons, (assoc_L (∪)).
    replace (S i + length vs) with (i + S (length vs)) by lia.
    by replace (S fuel - S (length vs)) with (fuel - length vs) by lia.
Qed.

End ObjectType.

Section ObjectTypeRun.

Context (W : World).

(** [object_type] on a node whose candidates end cleanly. *)
Lemma object_type_stop n context vs fuel st :
  produces (infer W n (Some (default {| callcontext := None |} context)))
    vs Stop →
  length vs < fuel →
  object_type W fuel n context st
  = let '(ts, st') := types_of W vs st in
    let types : gset ref := list_to_set ts in
    Some (Return (if (1 <? size types) || (size types =? 0) then YES
                  else default YES (head (elements types))),
          tick st').
Proof.
  intros [Hy He] Hf. unfold object_type. run.
  rewrite (set_of_object_type W n context vs Stop) by done.
  destruct (types_of W vs st) as [ts st']. rewrite (left_id_L ∅ (∪)).
  destruct (_ || _) eqn:Hs; [done|].
  destruct (elements _) as [|t ?] eqn:Hel; [|done].
  apply elements_empty_inv, size_empty_iff in Hel.
  apply orb_false_iff in Hs as [_ Hs]. by apply Nat.eqb_neq in Hs.
Qed.

(** [object_type] on a node whose inference fails. *)
Lemma object_type_error n context vs fuel st :
  produces (infer W n (Some (default {| callcontext := None |} context)))
    vs Error →
  length vs < fuel →
  object_type W fuel n context st
  = Some (Return YES, tick (types_of W vs st).2).
Proof.
  intros [Hy He] Hf. unfold object_type. run.
  rewrite (set_of_object_type W n context vs Error) by done.
  by destruct (types_of W vs st) as [ts st'].
Qed.

End ObjectTypeRun.

(** ** The index protocol *)

Section IndexProtocol.

Context (W : World) (n : node).

Local Abbreviation context := (index_context n).

(** The body of the loop over the call results of a bound method, and the
    body of the loop over the candidates for [__index__], as they stand in
    [class_instance_as_index]. *)
Local Abbreviation on_result :=
  (λ result : value,
     match result with
     | Const v _ => if isinstance_int v then ret (Some result) else ret None
     | _ => ret None
     end).

Local Abbreviation on_method fuel :=
  (λ inferred : value,
     match inferred with
     | BoundMethod m =>
         for_in fuel (infer_call_result W m n context) 0 on_result
     | _ => ret None
     end).

Lemma on_result_run r st :
  on_result r st = Some (Return (if int_const r then Some r else None), st).
Proof. destruct r; try done. simpl. by destruct (isinstance_int v). Qed.

Lemma iter_tick_S k st : Nat.iter k tick (tick st) = Nat.iter (S k) tick st.
Proof. induction k; simpl in *; congruence. Qed.

(** The loop over call results that are no [int] constants, up to the
    first that is one, or to the end of the sequence. *)
Lemma for_in_results (g : gen) rs e :
  ∀ fuel i st,
    yields g i rs → Forall (λ r, int_const r = false) rs →
    g (i + length rs) = e →
    match e with Yield r => int_const r = true | _ => True end →
    length rs < fuel →
    for_in fuel g i on_result st
    = Some (match e with
            | Yield r => Return (Some r)
            | Stop => Return None
            | Error => Raise InferenceError
            end, Nat.iter (S (length rs)) tick st).
Proof.
  induction rs as [|r rs IH]; intros fuel i st Hy Hrs He Hint Hf;
    (destruct fuel as [|fuel]; [simpl in Hf; lia|]); cbn [for_in]; run.
  - cbn [length] in He. rewrite Nat.add_0_r in He. rewrite He.
    destruct e as [r| |]; [|done..]. rewrite on_result_run. by rewrite Hint.
  - destruct Hy as [Hr Hy]. apply Forall_cons in Hrs as [Hn Hrs].
    rewrite Hr, on_result_run, Hn.
    rewrite (IH fuel (S i) (tick st)); try done.
    + by rewrite iter_tick_S.
    + rewrite <-He. f_equal. simpl. lia.
    + simpl in Hf. lia.
Qed.

Lemma barren_bound (vs : list value) :
  Forall (barren W n context) vs →
  ∃ F0, ∀ F, F0 ≤ F → Forall (barren_within W n F) vs.
Proof.
  induction 1 as [|v vs Hv _ [F0 IH]].
  - exists 0. constructor.
  - destruct v as [|?|m| | | | |];
      try (exists F0; intros F HF; constructor; [done|by apply IH]).
    destruct Hv as (rs & Hp & Hrs).
    exists (F0 `max` S (length rs)). intros F HF. constructor.
    + exists rs. split_and!; [done..|lia].
    + apply IH. lia.
Qed.

(** The loop over the candidates for [__index__] goes past those that
    give no result. *)
Lemma for_in_barren F (g : gen) vs :
  Forall (barren_within W n F) vs →
  ∀ fuel i st,
    yields g i vs →
    ∃ st', for_in (length vs + fuel) g i (on_method F) st
           = for_in fuel g (i + length vs) (on_method F) st'.
Proof.
  induction 1 as [|v vs Hv _ IH]; intros fuel i st Hy.
  - exists st. simpl. by rewrite Nat.add_0_r.
  - destruct Hy as [Hg Hy].
    assert (∃ st1, on_method F v (tick st) = Some (Return None, st1))
      as [st1 Hst1].
    { destruct v as [|?|m| | | | |]; try by eexists.
      destruct Hv as (rs & [Hyr Her] & Hrs & Hlen).
      eexists. by apply (for_in_results _ rs Stop). }
    destruct (IH fuel (S i) st1 Hy) as [st' Hst']. exists st'.
    cbn [length Nat.add for_in]. run. rewrite Hg, Hst1, Hst'.
    f_equal. lia.
Qed.

(** A loop that ends in its first round does so whatever the budget. *)
Lemma for_in_once {R} (g : gen) i (body : value → M (option R)) st o st' k :
  for_in 1 g i body st = Some (o, st') →
  for_in (S k) g i body st = Some (o, st').
Proof.
  cbn [for_in]. run. destruct (g i) as [v| |]; [|done..].
  by destruct (body v (tick st)) as [[[[?|]|?] ?]|].
Qed.

(** The loop arrives at the first candidate that is not barren. *)
Lemma index_loop_arrives (pre : list value) st :
  yields (igetattr W n "__index__" context) 0 pre →
  Forall (barren W n context) pre →
  ∃ F0, ∀ F k, F0 ≤ F →
    ∃ st', for_in (length pre + k) (igetattr W n "__index__" context) 0
             (on_method F) st
           = for_in k (igetattr W n "__index__" context) (length pre)
               (on_method F) st'.
Proof.
  intros Hy [F0 HF0]%barren_bound. exists F0. intros F k HF.
  destruct (for_in_barren F _ pre (HF0 F HF) k 0 st Hy) as [st' Hst'].
  by exists st'.
Qed.

Lemma class_instance_as_index_unfold fuel st :
  class_instance_as_index W fuel n st
  = match for_in fuel (igetattr W n "__index__" context) 0
            (on_method fuel) st with
    | Some (Raise InferenceError, st') => Some (Return None, st')
    | r => r
    end.
Proof.
  unfold class_instance_as_index, try_except.
  by destruct (for_in _ _ _ _ _) as [[[|[]] ?]|].
Qed.

(** What [class_instance_as_index] returns, from what comes after the
    barren candidates [pre]. *)
Lemma class_instance_as_index_run (pre : list value) st res :
  let g := igetattr W n "__index__" context in
  yields g 0 pre → Forall (barren W n context) pre →
  index_end W n pre res →
  ∃ fuel0, ∀ fuel, fuel0 ≤ fuel →
    ∃ st', class_instance_as_index W fuel n st = Some (Return res, st').
Proof.
  intros g Hy Hpre Hlast. unfold index_end in Hlast. cbn zeta in Hlast.
  fold g in Hlast.
  destruct (index_loop_arrives pre st Hy Hpre) as [F0 HF0].
  assert (∃ len, ∀ fuel st1, len < fuel →
            ∃ o st', for_in 1 g (length pre) (on_method fuel) st1
                     = Some (o, st')
                     ∧ match o with
                       | Return x => x = res
                       | Raise e => e = InferenceError ∧ res = None
                       end) as [len Hstep].
  { destruct Hlast as [[Hg ->]|[[Hg ->]|(m & rs & Hg & Hyr & Hrs & Hend)]].
    - exists 0. intros fuel st1 _. cbn [for_in]. run. rewrite Hg.
      by eexists _, _.
    - exists 0. intros fuel st1 _. cbn [for_in]. run. rewrite Hg.
      by eexists _, _.
    - exists (length rs). intros fuel st1 Hlen. cbn [for_in].
      destruct Hend as [(r & He & Hint & ->)|[He ->]].
      + pose proof (for_in_results (infer_call_result W m n context) rs
                      (Yield r) fuel 0 (tick st1) Hyr Hrs He Hint Hlen) as E.
        run. rewrite Hg, E. by eexists _, _.
      + pose proof (for_in_results (infer_call_result W m n context) rs
                      Error fuel 0 (tick st1) Hyr Hrs He I Hlen) as E.
        run. rewrite Hg, E. by eexists _, _. }
  exists (F0 `max` (S len `max` (length pre + 1))). intros fuel Hfuel.
  rewrite class_instance_as_index_unfold. fold g.
  destruct (HF0 fuel (fuel - length pre) ltac:(lia)) as [st1 E1].
  replace (length pre + (fuel - length pre)) with fuel in E1 by lia.
  fold g in E1. rewrite E1.
  destruct (Hstep fuel st1 ltac:(lia)) as (o & st' & E & Ho).
  assert (Hmono : for_in (fuel - length pre) g (length pre) (on_method fuel)
                    st1 = Some (o, st')).
  { destruct (fuel - length pre) as [|k] eqn:Ek; [lia|].
    by apply for_in_once. }
  rewrite Hmono. destruct o as [x|e].
  - subst x. eauto.
  - destruct Ho as [-> ->]. eauto.
Qed.

End IndexProtocol.

(** ** Flags under the other operations *)

Section Keeps.

Local Abbreviation cache := _all_bases_known.

(** A computation that leaves the flags as they are. *)
Local Abbreviation keeps m :=
  (∀ st o st', m st = Some (o, st') → cache st' = cache st).

Lemma keeps_bind {A B} (m : M A) (k : A → M B) :
  keeps m → (∀ a, keeps (k a)) → keeps (a ← m; k a).
Proof.
  intros Hm Hk st o st'. run.
  destruct (m st) as [[[a|e] st1]|] eqn:E; [| |done].
  - intros E2. apply (Hk a) in E2. apply Hm in E. congruence.
  - intros [= <- <-]. by apply Hm in E.
Qed.

Lemma keeps_try {A} (m : M A) handler :
  keeps m → (∀ e h, handler e = Some h → keeps h) →
  keeps (try_except m handler).
Proof.
  intros Hm Hh st o st'. run.
  destruct (m st) as [[[a|e] st1]|] eqn:E; [| |done].
  - intros [= <- <-]. by apply Hm in E.
  - destruct (handler e) as [h|] eqn:Eh.
    + intros E2. apply (Hh _ _ Eh) in E2. apply Hm in E. congruence.
    + intros [= <- <-]. by apply Hm in E.
Qed.

Lemma keeps_ret {A} (a : A) : keeps (ret a).
Proof. by intros st o st' [= <- <-]. Qed.

Lemma keeps_next g i : keeps (next g i).
Proof. intros st o st'. unfold next. by destruct (g i); intros [= <- <-]. Qed.

Lemma keeps_for_in {R} fuel g (body : value → M (option R)) :
  (∀ v, keeps (body v)) → ∀ i, keeps (for_in fuel g i body).
Proof.
  intros Hbody. induction fuel as [|fuel IH]; intros i; [done|].
  cbn [for_in]. apply keeps_bind.
  - apply keeps_try.
    + apply keeps_bind; [apply keeps_next|intros ?; apply keeps_ret].
    + intros [] h [= <-]. apply keeps_ret.
  - intros [v|]; [|apply keeps_ret]. apply keeps_bind; [apply Hbody|].
    intros [r|]; [apply keeps_ret|apply IH].
Qed.

Lemma keeps_set_of `{Countable A} fuel (g : nat → M A) :
  (∀ i, keeps (g i)) → ∀ i acc, keeps (set_of fuel g i acc).
Proof.
  intros Hg. induction fuel as [|fuel IH]; intros i acc; [done|].
  cbn [set_of]. apply keeps_bind.
  - apply keeps_try.
    + apply keeps_bind; [apply Hg|intros ?; apply keeps_ret].
    + intros [] h [= <-]. apply keeps_ret.
  - intros [a|]; [apply IH|apply keeps_ret].
Qed.

Context (W : World).

Lemma safe_infer_keeps n context : keeps (safe_infer W n context).
Proof.
  intros st o st'. rewrite safe_infer_run. intros [= <- <-].
  apply iter_tick_cache.
Qed.

Lemma object_type_keeps fuel n context : keeps (object_type W fuel n context).
Proof.
  unfold object_type. apply keeps_bind.
  - apply keeps_try.
    + apply keeps_bind; [|intros ?; apply keeps_ret]. apply keeps_set_of.
      intros i st o st'. rewrite _object_type_run.
      destruct (infer W n _ i) as [v| |]; [|by intros [= <- <-]..].
      unfold type_of. destruct (proxy_name W v); by intros [= <- <-].
    + intros [] h [= <-]. apply keeps_ret.
  - intros [types|]; [|apply keeps_ret].
    destruct (_ || _); [apply keeps_ret|].
    destruct (elements types); [|apply keeps_ret]. by intros st o st' [= <- <-].
Qed.

Lemma class_instance_as_index_keeps fuel n :
  keeps (class_instance_as_index W fuel n).
Proof.
  unfold class_instance_as_index. apply keeps_try.
  - apply keeps_for_in. intros v.
    destruct v; try apply keeps_ret. apply keeps_for_in.
    intros r. destruct r; try apply keeps_ret.
    destruct (isinstance_int v); apply keeps_ret.
  - intros [] h [= <-]. apply keeps_ret.
Qed.

(** [_type_check] only adds flags. *)
Lemma _type_check_frame fuel type1 type2 st o st' :
  _type_check W fuel type1 type2 st = Some (o, st') →
  cache st ⊆ cache st'.
Proof.
  assert (Hf := λ k s o' s', has_known_bases_frame W None fuel (cache s) k s
                               o' s' (reflexivity _)).
  intros E.
  apply _type_check_steps in E as [(o1 & E1)|(k1 & st1 & o2 & E1 & E2)].
  - by apply Hf in E1 as [? _].
  - apply Hf in E1 as [? _], E2 as [? _]. by etrans.
Qed.

(** No call changes a flag that is set. *)
Lemma call_frame st st' : call W st st' → cache st ⊆ cache st'.
Proof.
  intros [n c o E|fuel n c o E|fuel k c o E|fuel a b o E|fuel a b o E
         |fuel n o E].
  - by rewrite (safe_infer_keeps _ _ _ _ _ E).
  - by rewrite (object_type_keeps _ _ _ _ _ _ E).
  - by apply (has_known_bases_frame W c fuel _ k st o st').
  - by apply _type_check_frame in E.
  - by apply _type_check_frame in E.
  - by rewrite (class_instance_as_index_keeps _ _ _ _ _ E).
Qed.

Lemma later_frame st st' : later W st st' → cache st ⊆ cache st'.
Proof. induction 1 as [|??? ?%call_frame]; [done|by etrans]. Qed.

End Keeps.

(** ** Subtyping *)

Section TypeCheck.

Context (W : World).

Local Abbreviation cache := _all_bases_known.

Lemma _type_check_run fuel type1 type2 st k1 st1 k2 st2 :
  has_known_bases W fuel type1 None st = Some (Return k1, st1) →
  has_known_bases W fuel type2 None st1 = Some (Return k2, st2) →
  _type_check W fuel type1 type2 st
  = Some (Return (verdict W type1 type2 k1 k2),
          if PY2 W || k1 then st2 else st1).
Proof.
  intros E1 E2. unfold _type_check, all_known_bases, call_mro, verdict. run.
  destruct (PY2 W); rewrite E1; simpl.
  - rewrite E2. destruct (negb (k1 && k2)); [done|].
    destruct (negb _); [done|]. by destruct (mro W type2).
  - destruct k1; simpl; [|done]. rewrite E2. destruct (negb k2); [done|].
    destruct (negb _); [done|]. by destruct (mro W type2).
Qed.

End TypeCheck.

(** ** Classes that inherit from each other *)

Section Cycle.

Context (py2 : bool) (order : node → option (list node)).

Local Abbreviation W := (Sample.world py2 order).

(** On the classes [A] and [B], each the base of the other, no budget is
    enough: the recursion goes from one to the other without end. *)
Lemma cycle_never_returns fuel :
  ∀ klass st,
    klass = Sample.A ∨ klass = Sample.B →
    _all_bases_known st !! Sample.A = None →
    _all_bases_known st !! Sample.B = None →
    has_known_bases W fuel klass None st = None.
Proof.
  induction fuel as [|fuel IH]; intros klass st Hk HA HB; [done|].
  rewrite has_known_bases_S.
  destruct Hk as [-> | ->]; [rewrite HA|rewrite HB].
  - change (bases W Sample.A) with [Sample.B_name].
    rewrite bases_loop_cons. cbn zeta.
    change (single (infer W Sample.B_name None))
      with (Return (Some (ClassDef Sample.B)) : outcome (option value)).
    cbn match. rewrite bool_decide_eq_false_2 by done.
    rewrite IH; rewrite ?iter_tick_cache; auto.
  - change (bases W Sample.B) with [Sample.A_name].
    rewrite bases_loop_cons. cbn zeta.
    change (single (infer W Sample.A_name None))
      with (Return (Some (ClassDef Sample.A)) : outcome (option value)).
    cbn match. rewrite bool_decide_eq_false_2 by done.
    rewrite IH; rewrite ?iter_tick_cache; auto.
Qed.

(** The class [C] has [A] for its first base: no budget is enough for it
    either. *)
Lemma cycle_below_never_returns fuel :
  has_known_bases W fuel Sample.C None empty_state = None.
Proof.
  destruct fuel as [|fuel]; [done|]. rewrite has_known_bases_S.
  cbn [empty_state _all_bases_known]. rewrite lookup_empty.
  change (bases W Sample.C) with [Sample.A_name; Sample.one_const].
  rewrite bases_loop_cons. cbn zeta.
  change (single (infer W Sample.A_name None))
    with (Return (Some (ClassDef Sample.A)) : outcome (option value)).
  cbn match. rewrite bool_decide_eq_false_2 by done.
  rewrite cycle_never_returns; rewrite ?iter_tick_cache; auto.
Qed.

End Cycle.

(** ** Families of classes that inherit from each other *)

Section Entangled.

Context (W : World) (context : option InferenceContext).

Local Abbreviation cache := _all_bases_known.

Lemma unflagged_ticks family n st :
  unflagged family st → unflagged family (Nat.iter n tick st).
Proof. unfold unflagged. by rewrite iter_tick_cache. Qed.

Lemma unflagged_store (family : node → Prop) klass b st :
  ¬ family klass → unflagged family st →
  unflagged family (store_known klass b st).
Proof.
  intros Hk Hst k Hf. simpl. rewrite lookup_insert_ne; [by apply Hst|].
  by intros ->.
Qed.

(** The call for a class whose bases are known raises no exception. *)
Lemma bases_loop_known_no_raise rec klass :
  (∀ r st e st', coherent W context st → known W context r →
                 rec r st ≠ Some (Raise e, st')) →
  (∀ r st o st', coherent W context st → rec r st = Some (o, st') →
                 coherent W context st') →
  ∀ bs st e st',
    coherent W context st → Forall (base_passes W context klass) bs →
    bases_loop W rec klass context bs st ≠ Some (Raise e, st').
Proof.
  intros Hrec Hco. induction bs as [|base bs IH]; intros st e st' Hst Hbs.
  - by rewrite bases_loop_nil.
  - apply Forall_cons in Hbs as [(r & Hp%single_Some & Hne & Hk) Hbs].
    rewrite bases_loop_cons. cbn zeta.
    rewrite Hp, bool_decide_eq_false_2 by done.
    set (st1 := Nat.iter _ tick st).
    assert (Hst1 : coherent W context st1) by by apply coherent_ticks.
    destruct (rec r st1) as [[[[]|e'] st2]|] eqn:Er; [|done| |done].
    + apply IH; [by eapply Hco|done].
    + by apply Hrec in Er.
Qed.

Lemma has_known_bases_known_no_raise fuel klass st e st' :
  coherent W context st → known W context klass →
  has_known_bases W fuel klass context st ≠ Some (Raise e, st').
Proof.
  revert klass st e st'.
  induction fuel as [|fuel IH]; intros klass st e st' Hst Hk; [done|].
  rewrite has_known_bases_S. destruct (cache st !! klass); [done|].
  apply bases_loop_known_no_raise; [by auto| |done|by apply known_bases].
  intros r s o s' Hs Er.
  by destruct (has_known_bases_sound W context _ _ _ _ _ Hs Er).
Qed.

(** A run for a class outside of the family sets no flag in the family,
    when the calls it makes set none. *)
Lemma bases_loop_unflagged (family : node → Prop) rec klass :
  ¬ family klass →
  (∀ r st o st', coherent W context st → unflagged family st →
                 rec r st = Some (o, st') →
                 coherent W context st' ∧ unflagged family st') →
  ∀ bs st o st',
    coherent W context st → unflagged family st →
    bases_loop W rec klass context bs st = Some (o, st') →
    unflagged family st'.
Proof.
  intros Hk Hrec. induction bs as [|base bs IH]; intros st o st' Hst Hun.
  - rewrite bases_loop_nil. intros [= <- <-]. by apply unflagged_store.
  - rewrite bases_loop_cons. cbn zeta.
    set (st1 := Nat.iter _ tick st).
    assert (Hst1 : coherent W context st1) by by apply coherent_ticks.
    assert (Hun1 : unflagged family st1) by by apply unflagged_ticks.
    destruct (single _) as [[[r| | | | | | |]|]|e];
      try (intros [= <- <-]; by try apply unflagged_store).
    case_bool_decide.
    { intros [= <- <-]. by apply unflagged_store. }
    destruct (rec r st1) as [[[[]|e] st2]|] eqn:Er; [| | |done].
    + destruct (Hrec _ _ _ _ Hst1 Hun1 Er). by apply IH.
    + destruct (Hrec _ _ _ _ Hst1 Hun1 Er). intros [= <- <-].
      by apply unflagged_store.
    + destruct (Hrec _ _ _ _ Hst1 Hun1 Er). by intros [= <- <-].
Qed.

(** In a family of classes that inherit from each other and have no flag,
    no budget is enough for a class of the family, and a call that ends,
    for a class outside of it, leaves the family without flags. *)
Lemma entangled_run (family : node → Prop) fuel :
  entangled W context family →
  ∀ klass st,
    coherent W context st → unflagged family st →
    (family klass → has_known_bases W fuel klass context st = None)
    ∧ (∀ o st', has_known_bases W fuel klass context st = Some (o, st') →
                unflagged family st').
Proof.
  intros Hent. induction fuel as [|fuel IH]; intros klass st Hst Hun; [done|].
  rewrite has_known_bases_S. destruct (cache st !! klass) as [b|] eqn:Ek.
  { split; [|by intros o st' [= <- <-]].
    intros Hf. by rewrite (Hun _ Hf) in Ek. }
  assert (Hnone : family klass →
            bases_loop W (λ r, has_known_bases W fuel r context) klass
              context (bases W klass) st = None).
  { intros Hf.
    destruct (Hent _ Hf)
      as (r & Hr & pre & base & rest & -> & Hpre & Hp%single_Some & Hne).
    clear Ek. revert st Hst Hun.
    induction Hpre as [|b pre (r' & Hp'%single_Some & Hne' & Hk') _ IHpre];
      intros st Hst Hun; cbn [app]; rewrite bases_loop_cons; cbn zeta.
    - rewrite Hp, bool_decide_eq_false_2 by done.
      destruct (IH r (Nat.iter (drawn (infer W base context)) tick st))
        as [-> _];
        [by apply coherent_ticks|by apply unflagged_ticks|done..].
    - rewrite Hp', bool_decide_eq_false_2 by done.
      set (st1 := Nat.iter _ tick st).
      assert (Hst1 : coherent W context st1) by by apply coherent_ticks.
      assert (Hun1 : unflagged family st1) by by apply unflagged_ticks.
      destruct (has_known_bases W fuel r' context st1)
        as [[[[]|e] st2]|] eqn:Er; [| | |done].
      + destruct (has_known_bases_sound W context _ _ _ _ _ Hst1 Er).
        apply IHpre; [done|].
        by destruct (IH r' st1 Hst1 Hun1) as [_ H']; apply H' in Er.
      + destruct (has_known_bases_sound W context _ _ _ _ _ Hst1 Er)
          as [_ Hb].
        by apply (Hb false eq_refl) in Hk'.
      + by apply has_known_bases_known_no_raise in Er. }
  split; [done|]. intros o st' E.
  refine (bases_loop_unflagged family _ klass _ _ _ _ _ _ Hst Hun E).
  - intros Hf. by rewrite (Hnone Hf) in E.
  - intros r s o' s' Hs Hu Er. split.
    + by destruct (has_known_bases_sound W context _ _ _ _ _ Hs Er).
    + by destruct (IH r s Hs Hu) as [_ H']; apply H' in Er.
Qed.

Lemma has_known_bases_entangled (family : node → Prop) fuel klass st :
  coherent W context st → entangled W context family →
  unflagged family st → family klass →
  has_known_bases W fuel klass context st = None.
Proof. intros Hst Hent Hun. by apply entangled_run. Qed.

End Entangled.

(** [_type_check] does not return when the class it checks first is of
    such a family, nor when the second is and the bases of the first are
    known. *)
Lemma _type_check_entangled W (family : node → Prop) fuel type1 type2 st :
  coherent W None st → entangled W None family → unflagged family st →
  family type1 ∨ (known W None type1 ∧ family type2) →
  _type_check W fuel type1 type2 st = None.
Proof.
  intros Hst Hent Hun Hf. rewrite _type_check_verdict, all_known_bases_run.
  destruct (entangled_run W None family fuel Hent type1 st Hst Hun)
    as [H1 Hun1].
  destruct Hf as [Hf|[Hk Hf]]; [by rewrite H1|].
  destruct (has_known_bases W fuel type1 None st)
    as [[[k1|e] st1]|] eqn:E1; [| |done].
  - destruct (has_known_bases_sound W None _ _ _ _ _ Hst E1) as [Hst1 Hb].
    apply (Hb k1 eq_refl) in Hk as ->. rewrite orb_true_r.
    by rewrite (has_known_bases_entangled W None family fuel type2 st1);
      [|done|done|eapply Hun1|done].
  - by apply has_known_bases_known_no_raise in E1.
Qed.

(** ** When [class_instance_as_index] returns *)

Section IndexReturns.

Context (W : World) (n : node).

Local Abbreviation context := (index_context n).

Lemma yields_app (g : gen) i l1 l2 :
  yields g i (l1 ++ l2) ↔ yields g i l1 ∧ yields g (i + length l1) l2.
Proof.
  revert i. induction l1 as [|v l1 IH]; intros i; cbn [app yields length].
  - rewrite Nat.add_0_r. tauto.
  - rewrite IH. replace (S i + length l1) with (i + S (length l1)) by lia.
    tauto.
Qed.

(** A list of call results has a first [int] constant, or none. *)
Lemma first_int_const (rs : list value) :
  Forall (λ r, int_const r = false) rs
  ∨ ∃ rs1 r rs2, rs = rs1 ++ r :: rs2
                 ∧ Forall (λ r, int_const r = false) rs1
                 ∧ int_const r = true.
Proof.
  induction rs as [|r rs [IH|(rs1 & r' & rs2 & -> & H1 & Hr')]].
  - left. constructor.
  - destruct (int_const r) eqn:Hr.
    + right. exists [], r, rs. by split_and!.
    + left. by constructor.
  - destruct (int_const r) eqn:Hr.
    + right. exists [], r, (rs1 ++ r' :: rs2). by split_and!.
    + right. exists (r :: rs1), r', rs2. split_and!; [done| |done].
      by constructor.
Qed.

(** Among candidates whose call results come to an end, the loop meets a
    place that decides the result. *)
Lemma index_scan e (suffix : list value) :
  let g := igetattr W n "__index__" context in
  e = Stop ∨ e = Error →
  ∀ pre,
    yields g 0 (pre ++ suffix) → g (length (pre ++ suffix)) = e →
    Forall (barren W n context) pre →
    (∀ m, BoundMethod m ∈ suffix →
          ends (infer_call_result W m n context)) →
    ∃ pre' res, yields g 0 pre' ∧ Forall (barren W n context) pre'
                ∧ index_end W n pre' res.
Proof.
  intros g He. induction suffix as [|v suffix IH]; intros pre Hy Hg Hpre Hm.
  - rewrite app_nil_r in *. exists pre, None. split_and!; [done..|].
    unfold index_end. cbn zeta. fold g. destruct He; subst e; tauto.
  - assert (Hnext : barren W n context v →
              ∃ pre' res, yields g 0 pre' ∧ Forall (barren W n context) pre'
                          ∧ index_end W n pre' res).
    { intros Hv. apply (IH (pre ++ [v])).
      - by rewrite <-app_assoc.
      - by rewrite <-app_assoc.
      - apply Forall_app. split; [done|]. by constructor.
      - intros m Hin. apply Hm. by right. }
    destruct v as [|?|m| | | | |]; try by apply Hnext.
    destruct (Hm m) as (rs & e' & [Hrs He'] & Hend); [by left|].
    apply yields_app in Hy as [Hy1 [Hv _]]. cbn [Nat.add] in Hv.
    destruct (first_int_const rs) as [Hno|(rs1 & r & rs2 & -> & Hno & Hr)].
    + destruct Hend as [-> | ->].
      * apply Hnext. by exists rs.
      * exists pre, None. split_and!; [done..|]. right. right.
        exists m, rs. split_and!; [done..|]. by right.
    + apply yields_app in Hrs as [Hrs1 [Hr1 _]]. cbn [Nat.add] in Hr1.
      exists pre, (Some r). split_and!; [done..|]. right. right.
      exists m, rs1. split_and!; [done..|]. left. by exists r.
Qed.

Lemma class_instance_as_index_returns vs e st :
  produces (igetattr W n "__index__" context) vs e →
  e = Stop ∨ e = Error →
  (∀ m, BoundMethod m ∈ vs → ends (infer_call_result W m n context)) →
  ∃ fuel res st',
    class_instance_as_index W fuel n st = Some (Return res, st').
Proof.
  intros [Hy Hg] He Hm.
  destruct (index_scan e vs He [] Hy Hg) as (pre & res & Hy' & Hpre & Hend);
    [constructor|done|].
  destruct (class_instance_as_index_run W n pre st res Hy' Hpre Hend)
    as [fuel0 Hrun].
  destruct (Hrun fuel0) as [st' E]; [done|]. by exists fuel0, res, st'.
Qed.

End IndexReturns.

(** ** Exceptions that leave the operations *)

Section Raises.

(** The exceptions a computation raises all satisfy [P]. *)
Local Abbreviation raises_only P m :=
  (∀ st e st', m st = Some (Raise e, st') → P e).

Lemma raises_bind {A B} (P : exn → Prop) (m : M A) (k : A → M B) :
  raises_only P m → (∀ a, raises_only P (k a)) → raises_only P (a ← m; k a).
Proof.
  intros Hm Hk st e st'. run.
  destruct (m st) as [[[a|e'] st1]|] eqn:E; [| |done].
  - apply Hk.
  - intros [= <- <-]. by apply Hm in E.
Qed.

Lemma raises_try {A} (P Q : exn → Prop) (m : M A) handler :
  raises_only Q m →
  (∀ e, Q e → match handler e with
              | Some h => raises_only P h
              | None => P e
              end) →
  raises_only P (try_except m handler).
Proof.
  intros Hm Hh st e st'. run.
  destruct (m st) as [[[a|e'] st1]|] eqn:E; [done| |done].
  apply Hm, Hh in E. destruct (handler e') as [h|].
  - apply E.
  - by intros [= <- <-].
Qed.

Lemma raises_ret {A} (P : exn → Prop) (a : A) : raises_only P (ret a).
Proof. by intros st e st'. Qed.

Lemma raises_next g i :
  raises_only (λ e, e = StopIteration ∨ e = InferenceError) (next g i).
Proof.
  intros st e st'. unfold next. destruct (g i); intros [= <- <-]; auto.
Qed.

Lemma raises_for_in {R} (P : exn → Prop) fuel g
    (body : value → M (option R)) :
  P InferenceError → (∀ v, raises_only P (body v)) →
  ∀ i, raises_only P (for_in fuel g i body).
Proof.
  intros HP Hbody. induction fuel as [|fuel IH]; intros i; [done|].
  cbn [for_in]. apply raises_bind.
  - apply (raises_try P (λ e, e = StopIteration ∨ e = InferenceError)).
    + apply raises_bind; [apply raises_next|intros ?; apply raises_ret].
    + intros e [-> | ->]; [apply raises_ret|done].
  - intros [v|]; [|apply raises_ret]. apply raises_bind; [apply Hbody|].
    intros [r|]; [apply raises_ret|apply IH].
Qed.

Lemma raises_set_of `{Countable A} (P Q : exn → Prop) fuel (g : nat → M A) :
  (∀ i, raises_only Q (g i)) → (∀ e, Q e → e = StopIteration ∨ P e) →
  ∀ i acc, raises_only P (set_of fuel g i acc).
Proof.
  intros Hg HQ. induction fuel as [|fuel IH]; intros i acc; [done|].
  cbn [set_of]. apply raises_bind.
  - apply (raises_try P Q).
    + apply raises_bind; [apply Hg|intros ?; apply raises_ret].
    + intros e [-> | He]%HQ; [apply raises_ret|].
      by destruct e; try apply raises_ret.
  - intros [a|]; [apply IH|apply raises_ret].
Qed.

Context (W : World).

(** [object_type] raises nothing. *)
Lemma object_type_no_raise fuel n context st e st' :
  object_type W fuel n context st ≠ Some (Raise e, st').
Proof.
  intros E. revert st e st' E. unfold object_type.
  apply (raises_bind (λ _, False)).
  - apply (raises_try _ (λ e, e = InferenceError)).
    + apply raises_bind; [|intros ?; apply raises_ret].
      apply (raises_set_of _ (λ e, e = StopIteration ∨ e = InferenceError)).
      * intros i st e st'. rewrite _object_type_run.
        destruct (infer W n _ i) as [v| |]; [|intros [= <- <-]; auto..].
        by destruct (type_of W v (tick st)).
      * intros e [-> | ->]; auto.
    + intros e ->. apply raises_ret.
  - intros [types|]; [|apply raises_ret].
    destruct (_ || _) eqn:Hs; [apply raises_ret|].
    destruct (elements types) as [|t ?] eqn:Hel; [|apply raises_ret].
    apply elements_empty_inv, size_empty_iff in Hel.
    apply orb_false_iff in Hs as [_ Hs]. by apply Nat.eqb_neq in Hs.
Qed.

(** [class_instance_as_index] raises nothing. *)
Lemma class_instance_as_index_no_raise fuel n st e st' :
  class_instance_as_index W fuel n st ≠ Some (Raise e, st').
Proof.
  intros E. revert st e st' E. unfold class_instance_as_index.
  apply (raises_try _ (λ e, e = InferenceError)).
  - apply raises_for_in; [done|]. intros v.
    destruct v; try apply raises_ret. apply raises_for_in; [done|].
    intros r. destruct r; try apply raises_ret.
    destruct (isinstance_int v); apply raises_ret.
  - intros e ->. apply raises_ret.
Qed.

(** [safe_infer] raises [StopIteration] only, and only on a sequence of
    candidates that is empty. *)
Lemma safe_infer_raises n context st e st' :
  safe_infer W n context st = Some (Raise e, st') →
  e = StopIteration ∧ infer W n context 0 = Stop.
Proof.
  rewrite safe_infer_run. unfold single.
  destruct (infer W n context 0); [destruct (infer W n context 1)|..];
    by intros [= <- <-].
Qed.

Lemma bases_loop_raises rec klass context :
  (∀ r st e st', rec r st = Some (Raise e, st') → e = StopIteration) →
  ∀ bs st e st',
    bases_loop W rec klass context bs st = Some (Raise e, st') →
    e = StopIteration.
Proof.
  intros Hrec. induction bs as [|base bs IH]; intros st e st'; [done|].
  rewrite bases_loop_cons. cbn zeta.
  destruct (single (infer W base context)) as [[v|]|e'] eqn:Es.
  - destruct v as [r| | | | | | |]; try done.
    case_bool_decide; [done|].
    destruct (rec r _) as [[[[]|e'] st2]|] eqn:Er; [|done| |done].
    + apply IH.
    + intros [= <- <-]. by apply Hrec in Er.
  - done.
  - intros [= <- <-]. unfold single in Es.
    destruct (infer W base context 0); [destruct (infer W base context 1)|..];
      congruence.
Qed.

(** [has_known_bases] raises [StopIteration] only. *)
Lemma has_known_bases_raises fuel klass context st e st' :
  has_known_bases W fuel klass context st = Some (Raise e, st') →
  e = StopIteration.
Proof.
  revert klass st e st'.
  induction fuel as [|fuel IH]; intros klass st e st'; [done|].
  rewrite has_known_bases_S. destruct (_ !! klass); [done|].
  apply bases_loop_raises. intros r. apply IH.
Qed.

(** So does [_type_check], which catches [MroError]; and it does so
    under Python 2 only, as [all] takes the [StopIteration] of a lazy [map]
    for its end. *)
Lemma _type_check_raises fuel type1 type2 st e st' :
  _type_check W fuel type1 type2 st = Some (Raise e, st') →
  e = StopIteration ∧ PY2 W = true.
Proof.
  unfold _type_check. unfold mbind, M_bind, bind at 1.
  rewrite all_known_bases_run.
  assert (Hr := has_known_bases_raises fuel).
  assert (Hrest : ∀ known s,
    (if negb known then mret YES
     else if negb (newstyle W type1 && newstyle W type2)
          then mret (Definite false)
          else try_except
                 (order ← call_mro W type2;
                  mret (Definite (bool_decide (type1 ∈ removelast order))))
                 (λ e, match e with
                       | MroError => Some (mret YES)
                       | _ => None
                       end)) s ≠ Some (Raise e, st')).
  { intros known s. unfold call_mro. run.
    destruct (negb known); [done|]. destruct (negb _); [done|].
    by destruct (mro W type2). }
  destruct (has_known_bases W fuel type1 None st)
    as [[[k1|e1] st1]|] eqn:E1; [| |done].
  - destruct (PY2 W || k1); [|by intros ?%Hrest].
    destruct (has_known_bases W fuel type2 None st1)
      as [[[k2|e2] st2]|] eqn:E2; [by intros ?%Hrest| |done].
    apply Hr in E2 as ->. destruct (PY2 W); simpl.
    + by intros [= <- <-].
    + intros H. by destruct (Hrest true _ H).
  - apply Hr in E1 as ->. destruct (PY2 W); simpl.
    + by intros [= <- <-].
    + intros H. by destruct (Hrest true _ H).
Qed.

End Raises.

(** ** The sample programs *)

(** In the sample program every base of every class has a candidate. *)
Lemma Sample_no_empty_base py2 order klass base :
  base ∈ bases (Sample.world py2 order) klass →
  infer (Sample.world py2 order) base None 0 ≠ Stop.
Proof.
  intros Hin.
  do 10 (try destruct klass as [|klass]); cbn in Hin;
    repeat (apply elem_of_cons in Hin as [->|Hin]; [discriminate|]);
    by apply elem_of_nil in Hin.
Qed.

(** The classes [A], [B] and [C] of the sample program are a family of
    classes that inherit from each other. *)
Lemma Sample_entangled py2 order :
  entangled (Sample.world py2 order) None
    (λ klass, klass = Sample.A ∨ klass = Sample.B ∨ klass = Sample.C).
Proof.
  intros klass [->|[->| ->]].
  - exists Sample.B. split; [auto|].
    exists [], Sample.B_name, []. by repeat split.
  - exists Sample.A. split; [auto|].
    exists [], Sample.A_name, []. by repeat split.
  - exists Sample.A. split; [auto|].
    exists [], Sample.A_name, [Sample.one_const]. by repeat split.
Qed.

(** * The operations *)

(** ** [safe_infer] *)

(** C3. [safe_infer] returns the candidate of a node whose sequence is
    that one candidate and a clean end, and [None] when the inference fails
    before a first candidate or when there are two candidates or more.
    When the sequence ends cleanly without any candidate, the first
    [next] raises [StopIteration], which the first [try] does not catch:
    the call raises it instead of returning [None]. *)
Theorem safe_infer_cases (W : World) n context st :
  let g := infer W n context in
  (∀ v, produces g [v] Stop →
        safe_infer W n context st = Some (Return (Some v), tick (tick st)))
  ∧ (produces g [] Error →
     safe_infer W n context st = Some (Return None, tick st))
  ∧ (∀ v v', yields g 0 [v; v'] →
             safe_infer W n context st = Some (Return None, tick (tick st)))
  ∧ (produces g [] Stop →
     safe_infer W n context st = Some (Raise StopIteration, tick st)).
Proof.
  intros g. rewrite safe_infer_run. fold g. unfold single, drawn, produces.
  cbn [yields length]. split_and!.
  - intros v ((-> & _) & ->). done.
  - intros (_ & ->). done.
  - intros v v' (-> & -> & _). done.
  - intros (_ & ->). done.
Qed.

Lemma safe_infer_cases_witness :
  safe_infer (Sample.world false Sample.c3) Sample.empty_name None empty_state
  = Some (Raise StopIteration, tick empty_state).
Proof.
  apply (safe_infer_cases (Sample.world false Sample.c3) Sample.empty_name
           None empty_state).
  split; reflexivity.
Defined.

(** C10. When the candidates of a node are one value and then an
    inference failure at the second [next], [safe_infer] returns [None],
    not the value: as for two candidates. *)
Theorem safe_infer_failure_after_first (W : World) n context st v :
  produces (infer W n context) [v] Error →
  safe_infer W n context st = Some (Return None, tick (tick st)).
Proof.
  intros ((Hv & _) & He). rewrite safe_infer_run. unfold single, drawn.
  simpl in He. by rewrite Hv, He.
Qed.

Lemma safe_infer_failure_after_first_witness :
  safe_infer (Sample.world false Sample.c3) Sample.broken_name None
    empty_state
  = Some (Return None, tick (tick empty_state)).
Proof.
  apply (safe_infer_failure_after_first _ _ _ _ (ClassDef Sample.Base)).
  repeat split.
Defined.

(** ** [has_known_bases] *)

(** C6. When [has_known_bases] returns, its answer is the flag
    [_all_bases_known] of the class.  From then on, whatever calls of the
    operations come in between, the flag stays what it is and a call of
    [has_known_bases] on the class returns it and leaves the state as it
    is: in particular it requests no candidate of any base. *)
Theorem has_known_bases_memoized (W : World) fuel klass context st b st1 :
  has_known_bases W fuel klass context st = Some (Return b, st1) →
  _all_bases_known st1 !! klass = Some b
  ∧ ∀ st2, later W st1 st2 →
      _all_bases_known st2 !! klass = Some b
      ∧ ∀ fuel' context',
          has_known_bases W (S fuel') klass context' st2
          = Some (Return b, st2).
Proof.
  intros Hrun%has_known_bases_written. split; [done|].
  intros st2 Hlater%later_frame.
  assert (_all_bases_known st2 !! klass = Some b)
    by by eapply lookup_weaken.
  split; [done|]. intros fuel' context'. by apply has_known_bases_cached.
Qed.

Lemma has_known_bases_memoized_witness :
  ∃ st1,
    has_known_bases (Sample.world false Sample.c3) 2 Sample.Derived None
      empty_state = Some (Return true, st1)
    ∧ has_known_bases (Sample.world false Sample.c3) 1 Sample.Derived None
        st1 = Some (Return true, st1).
Proof.
  eexists. split; [reflexivity|].
  apply (has_known_bases_memoized (Sample.world false Sample.c3) 2
           Sample.Derived None empty_state true _ eq_refl).
  apply rtc_refl.
Defined.

(** ** [object_type] *)

(** C4. On a node whose candidates [vs] end cleanly, [object_type] returns
    the member of the set of the types of the candidates when this set
    has one member only, and [util.YES] when the set is empty or has two
    members or more; it returns [util.YES] as well when the inference of
    the node fails. *)
Theorem object_type_spec (W : World) n context st vs fuel :
  let g := infer W n (Some (default {| callcontext := None |} context)) in
  let types : gset ref := list_to_set (types_of W vs st).1 in
  length vs < fuel →
  (produces g vs Stop →
     ∃ t st', object_type W fuel n context st = Some (Return t, st')
              ∧ (∀ t', types = {[t']} → t = t')
              ∧ (types = ∅ → t = YES)
              ∧ (1 < size types → t = YES))
  ∧ (produces g vs Error →
     ∃ st', object_type W fuel n context st = Some (Return YES, st')).
Proof.
  intros g types Hfuel. split.
  - intros Hp. rewrite (object_type_stop W n context vs) by done.
    subst types. destruct (types_of W vs st) as [ts st1]. cbn [fst].
    eexists _, _. split; [done|]. split_and!.
    + intros t' ->. by rewrite size_singleton, elements_singleton.
    + intros ->. by rewrite size_empty.
    + intros Hs. apply Nat.ltb_lt in Hs. by rewrite Hs.
  - intros Hp. rewrite (object_type_error W n context vs) by done. eauto.
Qed.

Lemma object_type_spec_witness :
  ∃ st', object_type (Sample.world false Sample.c3) 2 Sample.method_name
           None empty_state
         = Some (Return (Definite (Proxy 0)), st').
Proof.
  destruct (object_type_spec (Sample.world false Sample.c3)
              Sample.method_name None empty_state [BoundMethod Sample.f] 2)
    as [Hstop _]; [simpl; lia|].
  destruct Hstop as (t & st' & E & Hone & _); [repeat split|].
  exists st'. rewrite E. do 3 f_equal. apply Hone. vm_compute. reflexivity.
Defined.

(** C8. On a node whose only candidate is a function, a bound method or
    an unbound method, [object_type] returns a class it builds for it, a
    child of the module of the built-ins.  Its name is
    [builtin_function_or_method] for a function rooted in the module of
    the built-ins and [function] for any other function; for a bound
    method it is [method], and for an unbound method [function], when
    [six.PY2] is false, and [instancemethod] for both when it is true. *)
Theorem object_type_function (W : World) n context st v fuel cls_name :
  produces (infer W n (Some (default {| callcontext := None |} context)))
    [v] Stop →
  1 < fuel →
  (∃ root_name, v = Lambda root_name
     ∧ cls_name = if String.eqb root_name (BUILTINS W)
                  then "builtin_function_or_method" else "function")
  ∨ (∃ m, v = BoundMethod m
       ∧ cls_name = if PY2 W then "instancemethod" else "method")
  ∨ (∃ m, v = UnboundMethod m
       ∧ cls_name = if PY2 W then "instancemethod" else "function") →
  ∃ p st',
    object_type W fuel n context st = Some (Return (Definite (Proxy p)), st')
    ∧ built st' !! p = Some {| name := cls_name;
                               parent := Some (builtins_module W) |}.
Proof.
  intros Hp Hfuel Hv. rewrite (object_type_stop W n context [v]) by done.
  assert (proxy_name W v = Some cls_name) as Hname.
  { by destruct Hv as [(? & -> & ->)|[(? & -> & ->)|(? & -> & ->)]]. }
  cbn [types_of]. unfold type_of. rewrite Hname.
  exists (length (built (tick st))), (tick (with_proxy W cls_name (tick st))).
  split.
  - rewrite list_to_set_singleton_L, size_singleton, elements_singleton.
    done.
  - by apply list_lookup_middle.
Qed.

Lemma object_type_function_witness :
  (∃ st', object_type (Sample.world false Sample.c3) 2 Sample.method_name
            None empty_state
          = Some (Return (Definite (Proxy 0)), st')
          ∧ built st' !! 0 = Some {| name := "method";
                                     parent := Some Sample.builtins_ |})
  ∧ (∃ st', object_type (Sample.world false Sample.c3) 2 Sample.lambda_name
              None empty_state
            = Some (Return (Definite (Proxy 0)), st')
            ∧ built st' !! 0
              = Some {| name := "builtin_function_or_method";
                        parent := Some Sample.builtins_ |}).
Proof.
  split.
  - destruct (object_type_function (Sample.world false Sample.c3)
                Sample.method_name None empty_state (BoundMethod Sample.f) 2
                "method") as (p & st' & E & Hp).
    + by repeat split.
    + lia.
    + right. left. by exists Sample.f.
    + exists st'. revert E Hp. vm_compute. intros [= <- <-]. done.
  - destruct (object_type_function (Sample.world false Sample.c3)
                Sample.lambda_name None empty_state (Lambda "builtins") 2
                "builtin_function_or_method") as (p & st' & E & Hp).
    + by repeat split.
    + lia.
    + left. by exists "builtins".
    + exists st'. revert E Hp. vm_compute. intros [= <- <-]. done.
Defined.

(** Under Python 2 the class built for a bound method is named
    [instancemethod] (the counterexample to C8 as it is stated). *)
Lemma object_type_bound_method_py2 :
  ∃ st', object_type (Sample.world true Sample.c3) 2 Sample.method_name
           None empty_state
         = Some (Return (Definite (Proxy 0)), st')
         ∧ name <$> built st' !! 0 = Some "instancemethod".
Proof. eexists. split; reflexivity. Qed.

(** ** [class_instance_as_index] *)



(** C5. In a state whose flags are those of the class hierarchy as it is
    resolved in the context of the call (such as the state without flags,
    and the states that calls of [has_known_bases] in that same context
    leave from it), whenever [has_known_bases] returns for a class, it
    returns true when every base of the class passes the four checks (it
    resolves to a single value, which is a class, other than the class
    itself, whose bases are all known in turn) and false when some base
    does not; and however the call ends, it leaves a state whose flags
    are those of the hierarchy.  It does return true when every base
    passes; and it returns, true or false, when the hierarchy is well
    founded, classes that are their own base apart, and no base has an
    empty sequence of candidates.  It does not return, whatever the budget
    of recursion, for a class of a family of classes without flags that
    inherit from each other: each class of the family has a base that
    resolves to a single class, another class of the family, and the
    bases that stand before this base pass the four checks. *)
Theorem has_known_bases_spec (W : World) context fuel klass st :
  coherent W context st →
  (∀ b st',
     has_known_bases W fuel klass context st = Some (Return b, st') →
     (b = true ↔ Forall (base_passes W context klass) (bases W klass))
     ∧ (Exists (λ base, ¬ base_passes W context klass base) (bases W klass)
        → b = false))
  ∧ (∀ o st',
       has_known_bases W fuel klass context st = Some (o, st') →
       coherent W context st')
  ∧ (Forall (base_passes W context klass) (bases W klass) →
     ∃ fuel' st',
       has_known_bases W fuel' klass context st = Some (Return true, st'))
  ∧ (∀ rank,
       ranked W context rank →
       (∀ klass base, base ∈ bases W klass → infer W base context 0 ≠ Stop) →
       ∃ b st', has_known_bases W (S (rank klass)) klass context st
                = Some (Return b, st'))
  ∧ (∀ family : node → Prop,
       entangled W context family → unflagged family st → family klass →
       has_known_bases W fuel klass context st = None).
Proof.
  intros Hst. split_and!.
  - intros b st' Hrun.
    destruct (has_known_bases_sound W context _ _ _ _ _ Hst Hrun)
      as [_ Hb].
    specialize (Hb b eq_refl). rewrite known_bases in Hb. split; [done|].
    intros Hex. apply not_true_is_false. intros Hall%Hb.
    apply Exists_exists in Hex as (base & Hin & Hno).
    rewrite Forall_forall in Hall. by apply Hno, Hall.
  - intros o st' Hrun.
    by destruct (has_known_bases_sound W context _ _ _ _ _ Hst Hrun).
  - intros [d Hd]%known_bases. exists d.
    by apply has_known_bases_known.
  - intros rank Hrank Hne. apply (has_known_bases_returns W context rank);
      [done..|lia].
  - intros family Hent Hun Hf.
    by apply (has_known_bases_entangled W context family).
Qed.

Lemma has_known_bases_spec_witness :
  (∃ fuel st',
     has_known_bases (Sample.world false Sample.c3) fuel Sample.Derived None
       empty_state = Some (Return true, st'))
  ∧ (∀ fuel,
       has_known_bases (Sample.world false Sample.c3) fuel Sample.C None
         empty_state = None).
Proof.
  split.
  - destruct (has_known_bases_spec (Sample.world false Sample.c3) None 0
                Sample.Derived empty_state) as (_ & _ & Htrue & _).
    + apply coherent_empty.
    + apply Htrue. repeat constructor. exists Sample.Base.
      split_and!; [by repeat split|done|]. by exists 1.
  - intros fuel.
    destruct (has_known_bases_spec (Sample.world false Sample.c3) None fuel
                Sample.C empty_state) as (_ & _ & _ & _ & Hnone).
    + apply coherent_empty.
    + apply (Hnone (λ klass, klass = Sample.A ∨ klass = Sample.B
                             ∨ klass = Sample.C)).
      * apply Sample_entangled.
      * intros klass _. apply lookup_empty.
      * auto.
Defined.

(** The second base of [C] resolves to a constant, which is no class, and
    yet [has_known_bases] does not return false for [C]: it does not return
    at all, as its first base leads into the cycle of [A] and [B] (C5 as
    it is stated fails here). *)
Lemma has_known_bases_below_cycle :
  Sample.one_const ∈ bases (Sample.world false Sample.c3) Sample.C
  ∧ produces (infer (Sample.world false Sample.c3) Sample.one_const None)
      [Const (PyInt 1) (Definite (Klass Sample.int_))] Stop
  ∧ ¬ ∃ fuel o st',
        has_known_bases (Sample.world false Sample.c3) fuel Sample.C None
          empty_state = Some (o, st').
Proof.
  split_and!.
  - set_solver.
  - by repeat split.
  - intros (fuel & o & st' & E). by rewrite cycle_below_never_returns in E.
Qed.

(** ** [is_subtype] *)

(** C1. When [has_known_bases] returns for [B] and then for [A],
    [is_subtype A B] returns; its answer is [util.YES] when one of the two
    flags is false; otherwise it is false when one of the classes is not
    new-style; otherwise it is [util.YES] when [A.mro()] raises [MroError],
    and else it is true exactly when [B] stands in [A.mro()] before its
    last entry.  Under Python 3, where [map] is lazy, the answer is
    [util.YES] as soon as the flag of [B] is false, without a call for
    [A].  So, for a class [Derived] whose only base is [Base], a
    class without bases, both new-style, with [Base] in the order of
    [Derived] before its last entry and [Derived] not in the order of
    [Base]: [is_subtype Derived Base] is true and [is_subtype Base Derived]
    is false. *)
Theorem is_subtype_spec (W : World) :
  (∀ fuel A B st kB st1 kA st2,
     has_known_bases W fuel B None st = Some (Return kB, st1) →
     has_known_bases W fuel A None st1 = Some (Return kA, st2) →
     ∃ r st',
       is_subtype W fuel A B st = Some (Return r, st')
       ∧ (kA = false ∨ kB = false → r = YES)
       ∧ (kA = true → kB = true →
          newstyle W A = false ∨ newstyle W B = false → r = Definite false)
       ∧ (kA = true → kB = true →
          newstyle W A = true → newstyle W B = true →
          match mro W A with
          | None => r = YES
          | Some order => r = Definite (bool_decide (B ∈ removelast order))
          end))
  ∧ (∀ fuel A B st st1,
       PY2 W = false →
       has_known_bases W fuel B None st = Some (Return false, st1) →
       is_subtype W fuel A B st = Some (Return YES, st1))
  ∧ (∀ Derived Base base order_derived order_base st,
       Derived ≠ Base →
       bases W Derived = [base] →
       produces (infer W base None) [ClassDef Base] Stop →
       bases W Base = [] →
       newstyle W Derived = true → newstyle W Base = true →
       mro W Derived = Some order_derived → mro W Base = Some order_base →
       Base ∈ removelast order_derived →
       Derived ∉ removelast order_base →
       coherent W None st →
       ∃ fuel st1 st2,
         is_subtype W fuel Derived Base st
         = Some (Return (Definite true), st1)
         ∧ is_subtype W fuel Base Derived st
           = Some (Return (Definite false), st2)).
Proof.
  split_and!.
  - intros fuel A B st kB st1 kA st2 EB EA. unfold is_subtype.
    rewrite (_type_check_run W fuel B A st kB st1 kA st2 EB EA).
    eexists _, _. split; [done|]. unfold verdict. split_and!.
    + intros [-> | ->]; [by rewrite andb_false_r|done].
    + intros -> -> [HA|HB]; simpl; rewrite ?HA, ?HB; [|done].
      by rewrite andb_false_r.
    + intros -> -> -> ->. simpl. by destruct (mro W A).
  - intros fuel A B st st1 Hpy E.
    unfold is_subtype, _type_check, all_known_bases. run.
    by rewrite Hpy, E.
  - intros Derived Base base oD oB st Hne HbD Hbase HbB HnD HnB HoD HoB
      Hin Hnin Hst.
    assert (KB : known_at W None 2 Base = true).
    { cbn [known_at]. by rewrite HbB. }
    assert (KD : known_at W None 2 Derived = true).
    { change (known_at W None 2 Derived)
        with (forallb (λ b, match base_class W None b with
                            | Some r => negb (bool_decide (r = Derived))
                                        && known_at W None 1 r
                            | None => false
                            end) (bases W Derived)).
      rewrite HbD. cbn [forallb].
      apply single_Some, base_class_Some in Hbase.
      rewrite Hbase, bool_decide_eq_false_2 by done.
      cbn [known_at]. by rewrite HbB. }
    exists 2.
    destruct (has_known_bases_known W None 2 Base st Hst KB) as [s1 E1].
    destruct (has_known_bases_sound W None _ _ _ _ _ Hst E1) as [Hs1 _].
    destruct (has_known_bases_known W None 2 Derived s1 Hs1 KD) as [s2 E2].
    destruct (has_known_bases_known W None 2 Derived st Hst KD) as [t1 F1].
    destruct (has_known_bases_sound W None _ _ _ _ _ Hst F1) as [Ht1 _].
    destruct (has_known_bases_known W None 2 Base t1 Ht1 KB) as [t2 F2].
    unfold is_subtype.
    rewrite (_type_check_run W 2 Base Derived st _ _ _ _ E1 E2).
    rewrite (_type_check_run W 2 Derived Base st _ _ _ _ F1 F2).
    unfold verdict. rewrite HnD, HnB, HoD, HoB. simpl.
    rewrite bool_decide_eq_true_2, bool_decide_eq_false_2 by done.
    eauto.
Qed.

Lemma is_subtype_spec_witness :
  ∃ fuel st1 st2,
    is_subtype (Sample.world false Sample.c3) fuel Sample.Derived Sample.Base
      empty_state = Some (Return (Definite true), st1)
    ∧ is_subtype (Sample.world false Sample.c3) fuel Sample.Base
        Sample.Derived empty_state = Some (Return (Definite false), st2).
Proof.
  destruct (is_subtype_spec (Sample.world false Sample.c3)) as (_ & _ & H).
  apply (H Sample.Derived Sample.Base Sample.Base_name
           [Sample.Derived; Sample.Base; Sample.object_]
           [Sample.Base; Sample.object_]); try reflexivity.
  - done.
  - by repeat split.
  - simpl. apply list_elem_of_In. simpl. auto.
  - simpl. intros [=]%list_elem_of_singleton.
  - apply coherent_empty.
Defined.

(** With the classes [Base] and [Derived], [is_subtype Base Derived] is
    false and [is_subtype Derived Base] is true, both when the resolution
    orders run from the class to [object] and when they run from [object]
    to the class (C1 as it is stated has it the other way round). *)
Lemma is_subtype_base_derived :
  fst <$> is_subtype (Sample.world false Sample.c3) 2 Sample.Base
            Sample.Derived empty_state
  = Some (Return (Definite false))
  ∧ fst <$> is_subtype (Sample.world false Sample.c3) 2 Sample.Derived
              Sample.Base empty_state
    = Some (Return (Definite true))
  ∧ fst <$> is_subtype (Sample.world false Sample.root_first) 2 Sample.Base
              Sample.Derived empty_state
    = Some (Return (Definite false))
  ∧ fst <$> is_subtype (Sample.world false Sample.root_first) 2
              Sample.Derived Sample.Base empty_state
    = Some (Return (Definite true)).
Proof. split_and!; reflexivity. Qed.

(** C2. For a new-style class [A] for which [has_known_bases] returns
    true and whose resolution order is [order], [is_subtype A A] is true
    exactly when [A] stands in [order] before its last entry.  It is
    false when [A] is the last entry of [order] and stands nowhere else,
    and true when [A] is the first entry of [order] and another follows,
    as in the order of C3, which runs from [A] to [object]. *)
Theorem is_subtype_self (W : World) fuel A st st1 order :
  has_known_bases W fuel A None st = Some (Return true, st1) →
  newstyle W A = true →
  mro W A = Some order →
  is_subtype W fuel A A st
  = Some (Return (Definite (bool_decide (A ∈ removelast order))), st1)
  ∧ (∀ l, order = l ++ [A] → A ∉ l →
          is_subtype W fuel A A st = Some (Return (Definite false), st1))
  ∧ (∀ l, order = A :: l → l ≠ [] →
          is_subtype W fuel A A st = Some (Return (Definite true), st1)).
Proof.
  intros E Hn Ho.
  assert (E' : has_known_bases W fuel A None st1 = Some (Return true, st1)).
  { destruct fuel as [|fuel]; [done|].
    by apply has_known_bases_cached, (has_known_bases_written W None (S fuel)
                                        A st). }
  assert (Hrun : is_subtype W fuel A A st
                 = Some (Return (Definite (bool_decide
                                             (A ∈ removelast order))), st1)).
  { unfold is_subtype. rewrite (_type_check_run W fuel A A st _ _ _ _ E E').
    unfold verdict. rewrite Hn, Ho. simpl. by destruct (PY2 W). }
  split_and!; [done|..].
  - intros l -> Hl. rewrite Hrun, removelast_last.
    by rewrite bool_decide_eq_false_2.
  - intros l -> Hl. rewrite Hrun. destruct l as [|x l]; [done|].
    rewrite bool_decide_eq_true_2; [done|]. simpl. left.
Qed.

Lemma is_subtype_self_witness :
  ∃ st1, is_subtype (Sample.world false Sample.root_first) 2 Sample.Base
           Sample.Base empty_state
         = Some (Return (Definite false), st1).
Proof.
  eexists.
  apply (is_subtype_self (Sample.world false Sample.root_first) 2
           Sample.Base empty_state _ [Sample.object_; Sample.Base]
           eq_refl eq_refl eq_refl).
Defined.

(** With the order of C3, [Base; object], [is_subtype Base Base] is true
    (C2 as it is stated fails here). *)
Lemma is_subtype_self_c3 :
  mro (Sample.world false Sample.c3) Sample.Base
  = Some [Sample.Base; Sample.object_]
  ∧ fst <$> has_known_bases (Sample.world false Sample.c3) 2 Sample.Base
              None empty_state
    = Some (Return true)
  ∧ fst <$> is_subtype (Sample.world false Sample.c3) 2 Sample.Base
              Sample.Base empty_state
    = Some (Return (Definite true)).
Proof. split_and!; reflexivity. Qed.

(** ** All the operations *)

(** C9. The operations return a value on these inputs: [safe_infer] on a
    node whose sequence of candidates does not end at once without a
    candidate; [object_type] on a node whose sequence of candidates comes
    to an end; [class_instance_as_index] when the candidates for
    [__index__] come to an end and so do the call results of the bound
    methods among them; [has_known_bases], [is_subtype] and [is_supertype]
    when the class hierarchy is well founded, classes that are their own
    base apart, and no base has an empty sequence of candidates.  On no
    input at all do they raise [InferenceError] or [MroError].  They do
    not all return whenever the collaborators do: in a state whose flags
    are those of the hierarchy, with a family of classes without flags
    that inherit from each other (each has a base that resolves to a
    single class, another class of the family, after bases that pass the
    four checks), [has_known_bases] does not return for a class of the
    family, whatever the budget of recursion; nor do [is_subtype] and
    [is_supertype] when the class they check first (the second argument
    of [is_subtype], the first of [is_supertype]) is of the family, or
    when the other class is and the bases of the first are known. *)
Theorem operations_return (W : World) :
  (∀ n context st,
     infer W n context 0 ≠ Stop →
     ∃ r st', safe_infer W n context st = Some (Return r, st'))
  ∧ (∀ n context st,
       ends (infer W n (Some (default {| callcontext := None |} context))) →
       ∃ fuel t st', object_type W fuel n context st = Some (Return t, st'))
  ∧ (∀ n st vs e,
       produces (igetattr W n "__index__" (index_context n)) vs e →
       e = Stop ∨ e = Error →
       (∀ m, BoundMethod m ∈ vs →
             ends (infer_call_result W m n (index_context n))) →
       ∃ fuel res st',
         class_instance_as_index W fuel n st = Some (Return res, st'))
  ∧ (∀ context rank,
       ranked W context rank →
       (∀ klass base, base ∈ bases W klass → infer W base context 0 ≠ Stop) →
       ∀ klass st,
         ∃ b st', has_known_bases W (S (rank klass)) klass context st
                  = Some (Return b, st'))
  ∧ (∀ rank,
       ranked W None rank →
       (∀ klass base, base ∈ bases W klass → infer W base None 0 ≠ Stop) →
       ∀ type1 type2 st,
         ∃ fuel,
           (∃ r st', is_subtype W fuel type1 type2 st = Some (Return r, st'))
           ∧ (∃ r st',
                is_supertype W fuel type1 type2 st = Some (Return r, st')))
  ∧ (∀ fuel n context klass type1 type2 st e st',
       safe_infer W n context st = Some (Raise e, st')
       ∨ object_type W fuel n context st = Some (Raise e, st')
       ∨ has_known_bases W fuel klass context st = Some (Raise e, st')
       ∨ is_subtype W fuel type1 type2 st = Some (Raise e, st')
       ∨ is_supertype W fuel type1 type2 st = Some (Raise e, st')
       ∨ class_instance_as_index W fuel n st = Some (Raise e, st') →
       e ≠ InferenceError ∧ e ≠ MroError)
  ∧ (∀ context (family : node → Prop) st,
       coherent W context st → entangled W context family →
       unflagged family st →
       ∀ fuel klass,
         family klass → has_known_bases W fuel klass context st = None)
  ∧ (∀ (family : node → Prop) st,
       coherent W None st → entangled W None family → unflagged family st →
       ∀ fuel type1 type2,
         family type2 ∨ (known W None type2 ∧ family type1) →
         is_subtype W fuel type1 type2 st = None
         ∧ is_supertype W fuel type2 type1 st = None).
Proof.
  split_and!.
  - intros n context st Hne. rewrite safe_infer_run.
    destruct (single (infer W n context)) as [r|e] eqn:Es; [eauto|].
    by apply single_Raise in Es.
  - intros n context st (vs & e & Hp & [-> | ->]); exists (S (length vs)).
    + rewrite (object_type_stop W n context vs) by (done || lia).
      destruct (types_of W vs st). eauto.
    + rewrite (object_type_error W n context vs) by (done || lia). eauto.
  - intros n st vs e. apply class_instance_as_index_returns.
  - intros context rank Hrank Hne klass st.
    apply (has_known_bases_returns W context rank); [done..|lia].
  - intros rank Hrank Hne type1 type2 st.
    exists (S (rank type1 `max` rank type2)).
    assert (Hret : ∀ klass s, klass = type1 ∨ klass = type2 → ∃ b s',
              has_known_bases W (S (rank type1 `max` rank type2)) klass None s
              = Some (Return b, s')).
    { intros klass s Hk.
      apply (has_known_bases_returns W None rank); [done..|].
      destruct Hk; subst; lia. }
    split; unfold is_subtype, is_supertype.
    + destruct (Hret type2 st) as (k1 & s1 & E1); [by right|].
      destruct (Hret type1 s1) as (k2 & s2 & E2); [by left|].
      rewrite (_type_check_run W _ _ _ _ _ _ _ _ E1 E2). eauto.
    + destruct (Hret type1 st) as (k1 & s1 & E1); [by left|].
      destruct (Hret type2 s1) as (k2 & s2 & E2); [by right|].
      rewrite (_type_check_run W _ _ _ _ _ _ _ _ E1 E2). eauto.
  - intros fuel n context klass type1 type2 st e st'
      [E|[E|[E|[E|[E|E]]]]].
    + by apply safe_infer_raises in E as [-> _].
    + by apply object_type_no_raise in E.
    + by apply has_known_bases_raises in E as ->.
    + by apply _type_check_raises in E as [-> _].
    + by apply _type_check_raises in E as [-> _].
    + by apply class_instance_as_index_no_raise in E.
  - intros context family st Hst Hent Hun fuel klass Hf.
    by apply (has_known_bases_entangled W context family).
  - intros family st Hst Hent Hun fuel type1 type2 Hf.
    unfold is_subtype, is_supertype.
    by rewrite (_type_check_entangled W family fuel type2 type1 st).
Qed.

Lemma operations_return_witness :
  (∃ fuel,
     (∃ r st', is_subtype Sample.acyclic fuel Sample.Derived Sample.Base
                 empty_state = Some (Return r, st'))
     ∧ (∃ r st', is_supertype Sample.acyclic fuel Sample.Derived Sample.Base
                   empty_state = Some (Return r, st')))
  ∧ (∀ fuel,
       is_subtype (Sample.world false Sample.c3) fuel Sample.B Sample.A
         empty_state = None
       ∧ is_supertype (Sample.world false Sample.c3) fuel Sample.A Sample.B
           empty_state = None).
Proof.
  split.
  - destruct (operations_return Sample.acyclic) as (_ & _ & _ & _ & H & _).
    apply (H Sample.height).
    + intros klass base r Hin Hr Hne.
      destruct klass as [|[|[|klass]]]; try by apply elem_of_nil in Hin.
      apply list_elem_of_singleton in Hin as ->.
      destruct Hr as [[[= <-] _] _]. vm_compute. lia.
    + intros klass base Hin.
      destruct klass as [|[|[|klass]]]; try by apply elem_of_nil in Hin.
      apply list_elem_of_singleton in Hin as ->. discriminate.
  - intros fuel.
    destruct (operations_return (Sample.world false Sample.c3))
      as (_ & _ & _ & _ & _ & _ & _ & H).
    apply (H (λ klass, klass = Sample.A ∨ klass = Sample.B
                       ∨ klass = Sample.C)).
    + apply coherent_empty.
    + apply Sample_entangled.
    + intros klass _. apply lookup_empty.
    + left. auto.
Defined.

(** The bases of [A] and [B] each resolve to one class, cleanly, and yet
    none of [has_known_bases A], [is_subtype A B] and [is_supertype A B]
    returns, whatever the budget of recursion (C9 as it is stated fails
    here). *)
Lemma cycle_no_return :
  produces (infer (Sample.world false Sample.c3) Sample.B_name None)
    [ClassDef Sample.B] Stop
  ∧ produces (infer (Sample.world false Sample.c3) Sample.A_name None)
      [ClassDef Sample.A] Stop
  ∧ (¬ ∃ fuel o st',
         has_known_bases (Sample.world false Sample.c3) fuel Sample.A None
           empty_state = Some (o, st'))
  ∧ (¬ ∃ fuel o st',
         is_subtype (Sample.world false Sample.c3) fuel Sample.A Sample.B
           empty_state = Some (o, st'))
  ∧ (¬ ∃ fuel o st',
         is_supertype (Sample.world false Sample.c3) fuel Sample.A Sample.B
           empty_state = Some (o, st')).
Proof.
  split_and!; [by repeat split..| | |].
  - intros (fuel & o & st' & E).
    rewrite cycle_never_returns in E; [done|by left|done..].
  - intros (fuel & o & st' & E). revert E.
    unfold is_subtype. rewrite _type_check_verdict, all_known_bases_run.
    rewrite cycle_never_returns; [done|by right|done..].
  - intros (fuel & o & st' & E). revert E.
    unfold is_supertype. rewrite _type_check_verdict, all_known_bases_run.
    rewrite cycle_never_returns; [done|by left|done..].
Qed.

(** ** Further properties *)

(** A node with two candidates for each of which a class is built (two
    functions, say) has the type [util.YES]: the two classes are two
    objects, even when they have the same name. *)
Theorem object_type_two_built (W : World) n context st v1 v2 fuel :
  produces (infer W n (Some (default {| callcontext := None |} context)))
    [v1; v2] Stop →
  is_Some (proxy_name W v1) → is_Some (proxy_name W v2) →
  2 < fuel →
  ∃ st', object_type W fuel n context st = Some (Return YES, st').
Proof.
  intros Hp [n1 H1] [n2 H2] Hfuel.
  rewrite (object_type_stop W n context [v1; v2]) by done.
  cbn [types_of]. unfold type_of. rewrite H1, H2.
  eexists. do 2 f_equal.
  rewrite list_to_set_cons, list_to_set_singleton_L.
  rewrite size_union, !size_singleton; [done|].
  apply disjoint_singleton_l, not_elem_of_singleton.
  intros [=]. simpl in *. rewrite length_app in *. simpl in *. lia.
Qed.

Lemma object_type_two_built_witness :
  ∃ st', object_type (Sample.world false Sample.c3) 3 Sample.two_lambdas
           None empty_state = Some (Return YES, st').
Proof.
  apply (object_type_two_built _ _ _ _ (Lambda "helpers") (Lambda "helpers")).
  - by repeat split.
  - by eexists.
  - by eexists.
  - lia.
Defined.

(** A class that is its own first base has bases that are not known, and
    under Python 3 [is_subtype] answers [util.YES] when it stands second. *)
Theorem has_known_bases_own_base (W : World) context fuel klass base rest st :
  bases W klass = base :: rest →
  produces (infer W base context) [ClassDef klass] Stop →
  _all_bases_known st !! klass = None →
  has_known_bases W (S fuel) klass context st
  = Some (Return false, store_known klass false (tick (tick st)))
  ∧ (context = None → PY2 W = false →
     ∀ type1, is_subtype W (S fuel) type1 klass st
              = Some (Return YES, store_known klass false (tick (tick st)))).
Proof.
  intros Hb Hp%single_Some Hk.
  assert (E : has_known_bases W (S fuel) klass context st
              = Some (Return false, store_known klass false (tick (tick st)))).
  { rewrite has_known_bases_S, Hk, Hb, bases_loop_cons. cbn zeta.
    rewrite Hp, bool_decide_eq_true_2 by done. unfold drawn.
    apply single_Some in Hp as [[-> _] _]. done. }
  split; [done|]. intros -> Hpy type1.
  unfold is_subtype, _type_check, all_known_bases. run.
  by rewrite Hpy, E.
Qed.

Lemma has_known_bases_own_base_witness :
  has_known_bases (Sample.world false Sample.c3) 1 Sample.Cyclic None
    empty_state
  = Some (Return false,
          store_known Sample.Cyclic false (tick (tick empty_state)))
  ∧ is_subtype (Sample.world false Sample.c3) 1 Sample.Base Sample.Cyclic
      empty_state
    = Some (Return YES,
            store_known Sample.Cyclic false (tick (tick empty_state))).
Proof.
  destruct (has_known_bases_own_base (Sample.world false Sample.c3) None 0
              Sample.Cyclic Sample.Cyclic_name [] empty_state)
    as [H1 H2]; [reflexivity|by repeat split|reflexivity|].
  split; [exact H1|]. by apply H2.
Defined.

(** ** Relations between the state before and after a call *)

Section Invariant.

Context (R : relation State) `{!PreOrder R}.
Hypothesis R_tick : ∀ st, R st (tick st).

(** Every run of the computation takes a state to one related to it. *)
Local Abbreviation within m := (∀ st o st', m st = Some (o, st') → R st st').

Lemma within_bind {A B} (m : M A) (k : A → M B) :
  within m → (∀ a, within (k a)) → within (a ← m; k a).
Proof.
  intros Hm Hk st o st'. run.
  destruct (m st) as [[[a|e] st1]|] eqn:E; [| |done].
  - intros E2. apply (Hk a) in E2. apply Hm in E. by etrans.
  - intros [= <- <-]. by apply Hm in E.
Qed.

Lemma within_try {A} (m : M A) handler :
  within m → (∀ e h, handler e = Some h → within h) →
  within (try_except m handler).
Proof.
  intros Hm Hh st o st'. run.
  destruct (m st) as [[[a|e] st1]|] eqn:E; [| |done].
  - intros [= <- <-]. by apply Hm in E.
  - destruct (handler e) as [h|] eqn:Eh.
    + intros E2. apply (Hh _ _ Eh) in E2. apply Hm in E. by etrans.
    + intros [= <- <-]. by apply Hm in E.
Qed.

Lemma within_ret {A} (a : A) : within (ret a).
Proof. by intros st o st' [= <- <-]. Qed.

Lemma within_raise {A} e : within (raise e : M A).
Proof. by intros st o st' [= <- <-]. Qed.

Lemma within_next g i : within (next g i).
Proof.
  intros st o st'. unfold next. by destruct (g i); intros [= <- <-].
Qed.

Lemma within_for_in {T} fuel g (body : value → M (option T)) :
  (∀ v, within (body v)) → ∀ i, within (for_in fuel g i body).
Proof.
  intros Hbody. induction fuel as [|fuel IH]; intros i; [done|].
  cbn [for_in]. apply within_bind.
  - apply within_try.
    + apply within_bind; [apply within_next|intros ?; apply within_ret].
    + intros [] h [= <-]. apply within_ret.
  - intros [v|]; [|apply within_ret]. apply within_bind; [apply Hbody|].
    intros [r|]; [apply within_ret|apply IH].
Qed.

Lemma within_set_of `{Countable A} fuel (g : nat → M A) :
  (∀ i, within (g i)) → ∀ i acc, within (set_of fuel g i acc).
Proof.
  intros Hg. induction fuel as [|fuel IH]; intros i acc; [done|].
  cbn [set_of]. apply within_bind.
  - apply within_try.
    + apply within_bind; [apply Hg|intros ?; apply within_ret].
    + intros [] h [= <-]. apply within_ret.
  - intros [a|]; [apply IH|apply within_ret].
Qed.

End Invariant.

Global Instance quiet_preorder : PreOrder quiet.
Proof.
  split.
  - by intros st.
  - intros s1 s2 s3 (? & ? & ?) (? & ? & ?).
    split_and!; [congruence..|lia].
Qed.

Global Instance flagged_preorder : PreOrder flagged.
Proof.
  split.
  - by intros st.
  - intros s1 s2 s3 (? & ? & ?) (? & ? & ?).
    split_and!; [by etrans|congruence|lia].
Qed.

Global Instance grown_preorder W : PreOrder (grown W).
Proof.
  split.
  - intros st. split_and!; [done..|]. exists []. by rewrite app_nil_r.
  - intros s1 s2 s3 (? & ? & a1 & E1 & H1) (? & ? & a2 & E2 & H2).
    split_and!; [congruence|lia|]. exists (a1 ++ a2). split.
    + by rewrite E2, E1, <-app_assoc.
    + by apply Forall_app.
Qed.

Lemma quiet_tick st : quiet st (tick st).
Proof. split_and!; simpl; auto. Qed.

Lemma grown_tick W st : grown W st (tick st).
Proof.
  split_and!; simpl; auto. exists []. by rewrite app_nil_r.
Qed.

Lemma quiet_flagged st st' : quiet st st' → flagged st st'.
Proof. intros (E & ? & ?). split_and!; [by rewrite E|done..]. Qed.

Lemma quiet_grown W st st' : quiet st st' → grown W st st'.
Proof.
  intros (? & E & ?). split_and!; [done..|]. exists [].
  by rewrite app_nil_r.
Qed.

Section Frames.

Context (W : World).

Lemma safe_infer_quiet n context st o st' :
  safe_infer W n context st = Some (o, st') → quiet st st'.
Proof.
  rewrite safe_infer_run. intros [= <- <-].
  split_and!; [apply iter_tick_cache|apply iter_tick_built|].
  rewrite iter_tick_pulls. lia.
Qed.

Lemma class_instance_as_index_quiet fuel n st o st' :
  class_instance_as_index W fuel n st = Some (o, st') → quiet st st'.
Proof.
  revert st o st'. unfold class_instance_as_index.
  apply (within_try quiet).
  - apply (within_for_in quiet quiet_tick). intros v.
    destruct v; try apply (within_ret quiet).
    apply (within_for_in quiet quiet_tick).
    intros r. destruct r; try apply (within_ret quiet).
    destruct (isinstance_int v); apply (within_ret quiet).
  - intros [] h [= <-]. apply (within_ret quiet).
Qed.

Lemma has_known_bases_flagged fuel klass context st o st' :
  has_known_bases W fuel klass context st = Some (o, st') → flagged st st'.
Proof. by apply has_known_bases_frame. Qed.

Lemma _type_check_flagged fuel type1 type2 st o st' :
  _type_check W fuel type1 type2 st = Some (o, st') → flagged st st'.
Proof.
  intros E.
  apply _type_check_steps in E as [(o1 & E1)|(k1 & st1 & o2 & E1 & E2)].
  - by apply has_known_bases_flagged in E1.
  - apply has_known_bases_flagged in E1, E2. by etrans.
Qed.

Lemma proxy_name_known v cls_name :
  proxy_name W v = Some cls_name → cls_name ∈ proxy_names.
Proof.
  unfold proxy_names.
  destruct v; simpl; try done; repeat case_match; intros [= <-];
    set_solver.
Qed.

Lemma type_of_grown v st : grown W st (type_of W v st).2.
Proof.
  unfold type_of. destruct (proxy_name W v) as [cls_name|] eqn:Hn;
    [|by cbn].
  split_and!; [done..|]. eexists. split; [done|].
  constructor; [|done]. split; [done|]. by eapply proxy_name_known.
Qed.

Lemma object_type_grown fuel n context st o st' :
  object_type W fuel n context st = Some (o, st') → grown W st st'.
Proof.
  revert st o st'. unfold object_type. apply (within_bind (grown W)).
  - apply (within_try (grown W)).
    + apply (within_bind (grown W)); [|intros ?; apply (within_ret _)].
      apply (within_set_of (grown W)). intros i st o st'.
      rewrite _object_type_run.
      destruct (infer W n _ i) as [v| |];
        [|intros [= <- <-]; apply grown_tick..].
      pose proof (type_of_grown v (tick st)) as Hg.
      destruct (type_of W v (tick st)) as [t st1]. intros [= <- <-].
      etrans; [apply grown_tick|done].
    + intros [] h [= <-]. apply (within_ret _).
  - intros [types|]; [|apply (within_ret _)].
    destruct (_ || _); [apply (within_ret _)|].
    destruct (elements types); [apply (within_raise _)|apply (within_ret _)].
Qed.

End Frames.

(** ** Building classes *)

(** [_build_proxy_class] returns a class that did not exist before, with
    the name and the parent it was given, and leaves the other classes,
    the flags and the count of requests as they were. *)
Theorem _build_proxy_class_fresh cls_name builtins st :
  ∃ p st',
    _build_proxy_class cls_name builtins st = Some (Return p, st')
    ∧ built st !! p = None
    ∧ built st' !! p = Some {| name := cls_name; parent := Some builtins |}
    ∧ (∀ q, q ≠ p → built st' !! q = built st !! q)
    ∧ _all_bases_known st' = _all_bases_known st
    ∧ pulls st' = pulls st.
Proof.
  eexists (length (built st)), _. split.
  { unfold _build_proxy_class, build_class, set_parent. run. done. }
  cbn [built _all_bases_known pulls]. rewrite alter_snoc. split_and!.
  - by apply lookup_ge_None.
  - by apply list_lookup_middle.
  - intros q Hq. destruct (decide (q < length (built st))) as [Hlt|Hge].
    + by rewrite lookup_app_l.
    + rewrite !lookup_ge_None_2; [done|lia|].
      rewrite length_app. simpl. lia.
  - done.
  - done.
Qed.

(** [_function_type] builds a class for a function, a bound method or an
    unbound method.  On any other value no branch assigns [cls_name]: the
    call raises [UnboundLocalError] and builds nothing. *)
Theorem _function_type_cases (W : World) function builtins st :
  (isinstance_Lambda function || isinstance_UnboundMethod function = true →
   ∃ cls_name,
     proxy_name W function = Some cls_name
     ∧ _function_type W function builtins st
       = Some (Return (length (built st)),
               {| _all_bases_known := _all_bases_known st;
                  built := built st ++ [{| name := cls_name;
                                           parent := Some builtins |}];
                  pulls := pulls st |}))
  ∧ (isinstance_Lambda function || isinstance_UnboundMethod function = false →
     _function_type W function builtins st
     = Some (Raise UnboundLocalError, st)).
Proof.
  assert (Hrun : ∀ cls_name,
            (_ ← ret cls_name; _build_proxy_class cls_name builtins) st
            = Some (Return (length (built st)),
                    {| _all_bases_known := _all_bases_known st;
                       built := built st ++ [{| name := cls_name;
                                                parent := Some builtins |}];
                       pulls := pulls st |})).
  { intros cls_name. unfold _build_proxy_class, build_class, set_parent. run.
    cbn [built _all_bases_known pulls]. by rewrite alter_snoc. }
  unfold _function_type. split.
  - destruct function; try done; intros _; simpl.
    + destruct (String.eqb _ _); eexists; (split; [done|apply Hrun]).
    + destruct (PY2 W); eexists; (split; [done|apply Hrun]).
    + destruct (PY2 W); eexists; (split; [done|apply Hrun]).
  - by destruct function.
Qed.

Lemma _function_type_cases_witness :
  _function_type (Sample.world false Sample.c3) Module Sample.builtins_
    empty_state
  = Some (Raise UnboundLocalError, empty_state).
Proof.
  by apply (_function_type_cases (Sample.world false Sample.c3) Module
              Sample.builtins_ empty_state).
Defined.

(** ** More on [safe_infer] *)

(** [safe_infer] requests one candidate, and a second one when the first
    request yielded a candidate; it never requests a third, however long
    the sequence is, and changes nothing else in the state. *)
Theorem safe_infer_pulls (W : World) n context st :
  ∃ o st',
    safe_infer W n context st = Some (o, st')
    ∧ pulls st' = pulls st + match infer W n context 0 with
                             | Yield _ => 2
                             | _ => 1
                             end
    ∧ _all_bases_known st' = _all_bases_known st
    ∧ built st' = built st.
Proof.
  rewrite safe_infer_run. eexists _, _. split; [done|].
  rewrite iter_tick_cache, iter_tick_built, iter_tick_pulls.
  unfold drawn. split_and!; [|done..]. destruct (infer W n context 0); lia.
Qed.

(** ** More on [object_type] *)

Section TypesOf.

Context (W : World).

Lemma types_of_declared vs st :
  Forall (λ v, proxy_name W v = None) vs →
  types_of W vs st = (declared_type W <$> vs, Nat.iter (length vs) tick st).
Proof.
  intros Hvs. revert st. induction Hvs as [|v vs Hv _ IH]; intros st; [done|].
  cbn [types_of]. unfold type_of. rewrite Hv, IH.
  cbn [fmap list_fmap length]. by rewrite iter_tick_S.
Qed.

Lemma list_to_set_constant {A} (f : A → ref) (l : list A) t :
  l ≠ [] → Forall (λ x, f x = t) l →
  list_to_set (f <$> l) =@{gset ref} {[t]}.
Proof.
  intros Hl Hall. induction Hall as [|x l Hx Hall IH]; [done|].
  cbn [fmap list_fmap]. rewrite list_to_set_cons, Hx.
  destruct l as [|y l].
  - cbn. by rewrite (right_id_L ∅ (∪)).
  - rewrite IH by done. by rewrite (idemp_L (∪)).
Qed.

Lemma types_of_counts vs st :
  length (types_of W vs st).1 = length vs
  ∧ pulls (types_of W vs st).2 = pulls st + length vs
  ∧ length (built (types_of W vs st).2)
    = length (built st) + length (List.filter (builds W) vs)
  ∧ _all_bases_known (types_of W vs st).2 = _all_bases_known st.
Proof.
  revert st. induction vs as [|v vs IH]; intros st.
  - cbn. split_and!; auto with lia.
  - cbn [types_of List.filter]. unfold type_of.
    destruct (proxy_name W v) as [cls_name|] eqn:Hn.
    + replace (builds W v) with true by (unfold builds; by rewrite Hn).
      specialize (IH (with_proxy W cls_name (tick st))).
      destruct (types_of W vs _) as [ts st2].
      destruct IH as (H1 & H2 & H3 & H4). cbn [fst snd length] in *.
      cbn [with_proxy tick built pulls _all_bases_known] in *.
      rewrite length_app in H3. cbn [length] in H3. split_and!; [lia..|done].
    + replace (builds W v) with false by (unfold builds; by rewrite Hn).
      specialize (IH (tick st)).
      destruct (types_of W vs _) as [ts st2].
      destruct IH as (H1 & H2 & H3 & H4). cbn [fst snd length] in *.
      cbn [tick built pulls _all_bases_known] in *.
      split_and!; [lia..|done].
Qed.

End TypesOf.

(** On a node whose candidates, at least one, end cleanly and all have
    the same type, none of them being a function, a method or a module,
    [object_type] returns that type: the metaclass of a class (the class
    [type] when it has none), the class an instance is proxied against,
    [util.YES] for [util.YES].  No class is built. *)
Theorem object_type_agreeing (W : World) n context st vs t fuel :
  produces (infer W n (Some (default {| callcontext := None |} context)))
    vs Stop →
  vs ≠ [] →
  Forall (λ v, proxy_name W v = None ∧ declared_type W v = t) vs →
  length vs < fuel →
  object_type W fuel n context st
  = Some (Return t, Nat.iter (S (length vs)) tick st).
Proof.
  intros Hp Hne Hall Hfuel.
  rewrite (object_type_stop W n context vs) by done.
  rewrite types_of_declared by (eapply Forall_impl; [done|by intros ? []]).
  cbv beta iota zeta.
  rewrite (list_to_set_constant _ _ t), size_singleton, elements_singleton;
    [done..|].
  eapply Forall_impl; [done|by intros ? []].
Qed.

Lemma object_type_agreeing_witness :
  object_type Variants.world 3 Variants.int_or_one None empty_state
  = Some (Return (Definite (Klass Sample.int_)),
          Nat.iter 3 tick empty_state).
Proof.
  apply (object_type_agreeing Variants.world Variants.int_or_one None
           empty_state
           [Instance (Definite (Klass Sample.int_));
            Const (PyInt 1) (Definite (Klass Sample.int_))]).
  - by repeat split.
  - done.
  - by repeat constructor.
  - simpl. lia.
Defined.

(** When [safe_infer] returns a value for a node, [object_type] returns
    the type of that value for the node, in the same context. *)
Theorem object_type_of_safe_infer (W : World) n c st0 st0' v fuel st :
  safe_infer W n (Some c) st0 = Some (Return (Some v), st0') →
  1 < fuel →
  object_type W fuel n (Some c) st
  = Some (Return (type_of W v (tick st)).1,
          tick (type_of W v (tick st)).2).
Proof.
  rewrite safe_infer_run. intros [= Hs%single_Some _] Hfuel.
  rewrite (object_type_stop W n (Some c) [v]) by done.
  cbn [types_of]. destruct (type_of W v (tick st)) as [t st1]. cbn [fst snd].
  by rewrite list_to_set_singleton_L, size_singleton, elements_singleton.
Qed.

Lemma object_type_of_safe_infer_witness :
  object_type (Sample.world false Sample.c3) 2 Sample.Base_name
    (Some {| callcontext := None |}) empty_state
  = Some (Return (Definite (Klass Sample.type_)), tick (tick empty_state)).
Proof.
  apply (object_type_of_safe_infer (Sample.world false Sample.c3)
           Sample.Base_name {| callcontext := None |} empty_state
           (tick (tick empty_state)) (ClassDef Sample.Base) 2 empty_state).
  - reflexivity.
  - lia.
Defined.

(** On a node whose candidates [vs] come to an end, [object_type] requests
    each candidate once and the end once, and builds one class for every
    candidate that is a function, a method or a module, whatever it
    returns. *)
Theorem object_type_counts (W : World) n context st vs e fuel :
  produces (infer W n (Some (default {| callcontext := None |} context)))
    vs e →
  e = Stop ∨ e = Error →
  length vs < fuel →
  ∃ t st',
    object_type W fuel n context st = Some (Return t, st')
    ∧ pulls st' = pulls st + S (length vs)
    ∧ length (built st')
      = length (built st) + length (List.filter (builds W) vs)
    ∧ _all_bases_known st' = _all_bases_known st.
Proof.
  intros Hp He Hfuel.
  destruct (types_of_counts W vs st) as (_ & H2 & H3 & H4).
  destruct He as [-> | ->].
  - rewrite (object_type_stop W n context vs) by done.
    destruct (types_of W vs st) as [ts st1]. cbn in *.
    eexists _, _. split; [done|]. cbn. split_and!; [lia|done..].
  - rewrite (object_type_error W n context vs) by done.
    eexists _, _. split; [done|]. cbn. split_and!; [lia|done..].
Qed.

Lemma object_type_counts_witness :
  ∃ st', object_type (Sample.world false Sample.c3) 3 Sample.two_lambdas
           None empty_state = Some (Return YES, st')
         ∧ pulls st' = 3 ∧ length (built st') = 2.
Proof.
  destruct (object_type_counts (Sample.world false Sample.c3)
              Sample.two_lambdas None empty_state
              [Lambda "helpers"; Lambda "helpers"] Stop 3)
    as (t & st' & E & Hp & Hb & _).
  - by repeat split.
  - by left.
  - simpl. lia.
  - exists st'. revert E Hp Hb. vm_compute. intros [= <- <-]. done.
Defined.

(** ** More on [has_known_bases] *)

Section BasesFlags.

Context (W : World) (context : option InferenceContext).

Lemma bases_loop_true_flags rec klass :
  (∀ r st st', rec r st = Some (Return true, st') →
               _all_bases_known st' !! r = Some true) →
  (∀ r st o st' (m0 : gmap node bool),
     m0 ⊆ _all_bases_known st → rec r st = Some (o, st') →
     m0 ⊆ _all_bases_known st' ∧ built st' = built st
     ∧ pulls st ≤ pulls st') →
  ∀ bs st st',
    bases_loop W rec klass context bs st = Some (Return true, st') →
    ∀ base, base ∈ bs →
      ∃ r, produces (infer W base context) [ClassDef r] Stop
           ∧ r ≠ klass ∧ _all_bases_known st' !! r = Some true.
Proof.
  intros Hrec Hframe. induction bs as [|base bs IH]; intros st st'.
  { by intros _ base ?%elem_of_nil. }
  rewrite bases_loop_cons. cbn zeta.
  destruct (single (infer W base context)) as [[v|]|e] eqn:Es; [|done..].
  destruct v as [r| | | | | | |]; try done.
  case_bool_decide as Hr; [done|].
  destruct (rec r _) as [[[[]|e] st2]|] eqn:Er; [|done..].
  intros Hloop base' [->|Hin]%elem_of_cons; [|by eapply IH].
  exists r. split_and!; [by apply single_Some|done|].
  apply Hrec in Er.
  destruct (bases_loop_frame W context rec klass {[r := true]} bs)
    with (st := st2) (o := Return true) (st' := st') as [Hsub _].
  - by apply lookup_singleton_ne.
  - intros r' s o s' Hs Hr'. by eapply Hframe.
  - by apply map_singleton_subseteq_l.
  - done.
  - by apply map_singleton_subseteq_l in Hsub.
Qed.

End BasesFlags.

(** When [has_known_bases] computes true for a class, that is when the
    class had no flag yet, every base of the class resolves to a single
    class, other than the class itself, and the flag of that class is true
    afterwards: a later call for it is answered from its flag. *)
Theorem has_known_bases_true_flags (W : World) fuel klass context st st' :
  _all_bases_known st !! klass = None →
  has_known_bases W fuel klass context st = Some (Return true, st') →
  ∀ base, base ∈ bases W klass →
    ∃ r, produces (infer W base context) [ClassDef r] Stop
         ∧ r ≠ klass
         ∧ _all_bases_known st' !! r = Some true
         ∧ ∀ fuel', has_known_bases W (S fuel') r context st'
                    = Some (Return true, st').
Proof.
  intros Hk. destruct fuel as [|fuel]; [done|].
  rewrite has_known_bases_S, Hk. intros Hloop base Hin.
  destruct (bases_loop_true_flags W context
              (λ r, has_known_bases W fuel r context) klass)
    with (bs := bases W klass) (st := st) (st' := st') (base := base)
    as (r & Hp & Hne & Hr); [..|done|done|].
  - intros r s s'. apply has_known_bases_written.
  - intros r s o s' m0 Hm. by apply has_known_bases_frame.
  - exists r. split_and!; [done..|]. intros fuel'.
    by apply has_known_bases_cached.
Qed.

Lemma has_known_bases_true_flags_witness :
  ∃ st r,
    has_known_bases (Sample.world false Sample.c3) 2 Sample.Derived None
      empty_state = Some (Return true, st)
    ∧ produces (infer (Sample.world false Sample.c3) Sample.Base_name None)
        [ClassDef r] Stop
    ∧ _all_bases_known st !! r = Some true.
Proof.
  eexists.
  destruct (has_known_bases_true_flags (Sample.world false Sample.c3) 2
              Sample.Derived None empty_state _ eq_refl eq_refl
              Sample.Base_name) as (r & Hp & _ & Hr & _).
  - by left.
  - exists r. by split_and!.
Defined.

(** The bases are looked at in their order, and the first base decides
    when it does not resolve to a single class: the call returns false,
    sets the flag to false, and requests no candidate of the bases that
    follow, whatever they are. *)
Theorem has_known_bases_first_base (W : World) fuel klass context base rest st :
  bases W klass = base :: rest →
  _all_bases_known st !! klass = None →
  infer W base context 0 ≠ Stop →
  (∀ r, ¬ produces (infer W base context) [ClassDef r] Stop) →
  ∃ st',
    has_known_bases W (S fuel) klass context st = Some (Return false, st')
    ∧ _all_bases_known st' = <[klass:=false]> (_all_bases_known st)
    ∧ pulls st' ≤ pulls st + 2
    ∧ built st' = built st.
Proof.
  intros Hb Hk Hne Hno.
  rewrite has_known_bases_S, Hk, Hb, bases_loop_cons. cbn zeta.
  assert (Hst : ∀ s, s = store_known klass false
                           (Nat.iter (drawn (infer W base context)) tick st) →
            _all_bases_known s = <[klass:=false]> (_all_bases_known st)
            ∧ pulls s ≤ pulls st + 2 ∧ built s = built st).
  { intros s ->. cbn. rewrite iter_tick_cache, iter_tick_built,
      iter_tick_pulls. split_and!; [done| |done].
    unfold drawn. destruct (infer W base context 0); lia. }
  destruct (single (infer W base context)) as [[v|]|e] eqn:Es.
  - destruct v as [r| | | | | | |]; try (eexists; split; [done|by apply Hst]).
    by apply single_Some, Hno in Es.
  - eexists; split; [done|by apply Hst].
  - by apply single_Raise in Es.
Qed.

Lemma has_known_bases_first_base_witness :
  ∃ st', has_known_bases Variants.world 1 Sample.C None empty_state
         = Some (Return false, st')
         ∧ _all_bases_known st' = {[Sample.C := false]}.
Proof.
  destruct (has_known_bases_first_base Variants.world 0 Sample.C None
              Sample.one_const [Sample.A_name] empty_state)
    as (st' & E & Hf & _).
  - reflexivity.
  - reflexivity.
  - discriminate.
  - intros r [[[=] _] _].
  - exists st'. split; [done|]. rewrite Hf. apply insert_empty.
Defined.

(** ** More on the subtype check *)

Section TypeCheckAgain.

Context (W : World).

(** No base of any class has an empty sequence of candidates. *)
Local Abbreviation no_empty_base :=
  (∀ klass base, base ∈ bases W klass → infer W base None 0 ≠ Stop).

Lemma bases_loop_no_raise rec klass :
  (∀ base, base ∈ bases W klass → infer W base None 0 ≠ Stop) →
  (∀ r st e st', rec r st ≠ Some (Raise e, st')) →
  ∀ bs, bs ⊆ bases W klass →
    ∀ st e st', bases_loop W rec klass None bs st ≠ Some (Raise e, st').
Proof.
  intros Hne Hrec. induction bs as [|base bs IH]; intros Hbs st e st'; [done|].
  rewrite bases_loop_cons. cbn zeta.
  assert (Hin : base ∈ bases W klass) by (apply Hbs; left).
  destruct (single (infer W base None)) as [[v|]|e'] eqn:Es.
  - destruct v as [r| | | | | | |]; try done.
    case_bool_decide; [done|].
    destruct (rec r _) as [[[[]|e'] st2]|] eqn:Er; [|done| |done].
    + apply IH. set_solver.
    + by apply Hrec in Er.
  - done.
  - apply single_Raise in Es. by apply Hne in Es.
Qed.

Lemma has_known_bases_no_raise fuel klass st e st' :
  no_empty_base →
  has_known_bases W fuel klass None st ≠ Some (Raise e, st').
Proof.
  intros Hne. revert klass st e st'.
  induction fuel as [|fuel IH]; intros klass st e st'; [done|].
  rewrite has_known_bases_S. destruct (_ !! klass); [done|].
  apply bases_loop_no_raise; [by eauto|by eauto|done].
Qed.

(** The calls of [has_known_bases] behind an answer of [_type_check],
    under Python 2 or when no base has an empty sequence of candidates. *)
Lemma _type_check_inv fuel type1 type2 st r st' :
  PY2 W = true ∨ no_empty_base →
  _type_check W fuel type1 type2 st = Some (Return r, st') →
  ∃ k1 st1,
    has_known_bases W fuel type1 None st = Some (Return k1, st1)
    ∧ ((PY2 W = false ∧ k1 = false ∧ st' = st1 ∧ r = YES)
       ∨ ∃ k2, has_known_bases W fuel type2 None st1 = Some (Return k2, st')
               ∧ r = verdict W type1 type2 k1 k2).
Proof.
  intros Hin. rewrite _type_check_verdict, all_known_bases_run.
  assert (Hno : ∀ k s e s',
            has_known_bases W fuel k None s = Some (Raise e, s') →
            PY2 W = true).
  { intros k s e s' E. destruct Hin as [|Hne]; [done|].
    by apply has_known_bases_no_raise in E. }
  destruct (has_known_bases W fuel type1 None st)
    as [[[k1|e1] st1]|] eqn:E1; [| |done].
  - destruct (PY2 W || k1) eqn:Ho.
    + destruct (has_known_bases W fuel type2 None st1)
        as [[[k2|e2] st2]|] eqn:E2; [| |done].
      * intros [= <- <-]. exists k1, st1. split; [done|]. right. exists k2.
        split; [done|]. unfold verdict. by destruct k1, k2.
      * apply Hno in E2. by rewrite E2.
    + apply orb_false_iff in Ho as [Hpy ->]. intros [= <- <-].
      exists false, st1. split; [done|]. by left.
  - apply Hno in E1. by rewrite E1.
Qed.

(** Asking again gives the same answer and leaves the state as it is. *)
Lemma _type_check_again fuel type1 type2 st r st' :
  PY2 W = true ∨ no_empty_base →
  _type_check W fuel type1 type2 st = Some (Return r, st') →
  (∀ fuel', _type_check W (S fuel') type1 type2 st' = Some (Return r, st'))
  ∧ (∀ b, r = Definite b →
          _all_bases_known st' !! type1 = Some true
          ∧ _all_bases_known st' !! type2 = Some true).
Proof.
  intros Hin E. apply _type_check_inv in E as (k1 & st1 & E1 & Hrest); [|done].
  pose proof (has_known_bases_written W None _ _ _ _ _ E1) as F1.
  destruct Hrest as [(Hpy & -> & -> & ->)|(k2 & E2 & ->)].
  - split; [|done]. intros fuel'.
    rewrite _type_check_verdict, all_known_bases_run.
    by rewrite Hpy, (has_known_bases_cached W None fuel' _ _ _ F1).
  - pose proof (has_known_bases_written W None _ _ _ _ _ E2) as F2.
    destruct (has_known_bases_frame W None _ _ _ _ _ _ (reflexivity _) E2)
      as [Hsub _].
    eapply lookup_weaken in F1; [|done].
    split.
    + intros fuel'.
      rewrite (_type_check_run W (S fuel') type1 type2 st' k1 st' k2 st');
        [|by apply has_known_bases_cached..].
      by destruct (PY2 W || k1).
    + unfold verdict. intros b.
      destruct k1, k2; simpl; try done.
Qed.

End TypeCheckAgain.

(** Under Python 2, or when no base of any class has an empty sequence of
    candidates: when [is_subtype] or [is_supertype] has returned, the same
    call in the state it left returns the same answer and leaves the state
    as it is: it is answered from the flags and requests no candidate.
    When the answer is true or false, the flags of both classes are
    true. *)
Theorem is_subtype_again (W : World) fuel type1 type2 st r st' :
  PY2 W = true
  ∨ (∀ klass base, base ∈ bases W klass → infer W base None 0 ≠ Stop) →
  is_subtype W fuel type1 type2 st = Some (Return r, st')
  ∨ is_supertype W fuel type2 type1 st = Some (Return r, st') →
  (∀ fuel', is_subtype W (S fuel') type1 type2 st' = Some (Return r, st')
            ∧ is_supertype W (S fuel') type2 type1 st'
              = Some (Return r, st'))
  ∧ (∀ b, r = Definite b →
          _all_bases_known st' !! type1 = Some true
          ∧ _all_bases_known st' !! type2 = Some true).
Proof.
  unfold is_subtype, is_supertype. intros Hin E.
  assert (E' : _type_check W fuel type2 type1 st = Some (Return r, st'))
    by by destruct E.
  destruct (_type_check_again W _ _ _ _ _ _ Hin E') as [H1 H2]. split.
  - intros fuel'. by split.
  - intros b Hb. destruct (H2 b Hb). by split.
Qed.

Lemma is_subtype_again_witness :
  ∃ st',
    is_subtype (Sample.world false Sample.c3) 2 Sample.Derived Sample.Base
      empty_state = Some (Return (Definite true), st')
    ∧ is_subtype (Sample.world false Sample.c3) 1 Sample.Derived Sample.Base
        st' = Some (Return (Definite true), st')
    ∧ _all_bases_known st' !! Sample.Derived = Some true.
Proof.
  eexists.
  destruct (is_subtype_again (Sample.world false Sample.c3) 2 Sample.Derived
              Sample.Base empty_state (Definite true) _
              (or_intror (Sample_no_empty_base false Sample.c3)) (or_introl eq_refl))
    as [H1 H2].
  split_and!; [reflexivity|apply H1|by apply (H2 true)].
Defined.



(** The class that stands last in the resolution order of [A], and
    nowhere else in it, is not found to be a supertype of [A]: with the
    orders of C3 this is [object]. *)
Theorem is_subtype_last_entry (W : World) fuel A B st st1 st2 order :
  has_known_bases W fuel B None st = Some (Return true, st1) →
  has_known_bases W fuel A None st1 = Some (Return true, st2) →
  newstyle W A = true → newstyle W B = true →
  mro W A = Some (order ++ [B]) → B ∉ order →
  is_subtype W fuel A B st = Some (Return (Definite false), st2).
Proof.
  intros EB EA HA HB Ho Hin. unfold is_subtype.
  rewrite (_type_check_run W fuel B A st _ _ _ _ EB EA).
  unfold verdict. rewrite HA, HB, Ho, removelast_last. simpl.
  rewrite bool_decide_eq_false_2 by done. by rewrite orb_true_r.
Qed.

Lemma is_subtype_last_entry_witness :
  ∃ st', is_subtype (Sample.world false Sample.c3) 2 Sample.Derived
           Sample.object_ empty_state
         = Some (Return (Definite false), st').
Proof.
  eexists.
  apply (is_subtype_last_entry (Sample.world false Sample.c3) 2
           Sample.Derived Sample.object_ empty_state _ _
           [Sample.Derived; Sample.Base] eq_refl eq_refl eq_refl eq_refl
           eq_refl).
  intros [[=]|[[=]|[]%elem_of_nil]%elem_of_cons]%elem_of_cons.
Defined.

(** ** More on [class_instance_as_index] *)

Lemma for_in_returns {T} (P : T → Prop) fuel g (body : value → M (option T)) :
  (∀ v st r st', body v st = Some (Return (Some r), st') → P r) →
  ∀ i st r st', for_in fuel g i body st = Some (Return (Some r), st') → P r.
Proof.
  intros Hbody. induction fuel as [|fuel IH]; intros i st r st'; [done|].
  cbn [for_in]. run. destruct (g i) as [v| |]; [|done..].
  destruct (body v (tick st)) as [[[[r'|]|e] st1]|] eqn:Eb; [| |done..].
  - intros [= <- <-]. by eapply Hbody.
  - apply IH.
Qed.

(** What [class_instance_as_index] returns, when it is not [None], is a
    [Const] node whose value is an [int], for every node and whatever the
    candidates are. *)
Theorem class_instance_as_index_int (W : World) fuel n st v st' :
  class_instance_as_index W fuel n st = Some (Return (Some v), st') →
  ∃ c proxied, v = Const c proxied ∧ isinstance_int c = true.
Proof.
  rewrite class_instance_as_index_unfold.
  destruct (for_in _ _ _ _ _) as [[[r|e] st1]|] eqn:E; [| |done].
  - intros [= -> ->]. revert E.
    set (P := λ v, ∃ c p, v = Const c p ∧ isinstance_int c = true).
    apply (for_in_returns P).
    intros inferred s r s'. destruct inferred; try done.
    apply (for_in_returns P).
    intros result t r' t'. destruct result as [| | | | |c p| |]; try done.
    destruct (isinstance_int c) eqn:Hc; [|done]. intros [= <- <-].
    by exists c, p.
  - by destruct e.
Qed.

Lemma class_instance_as_index_int_witness :
  ∃ c proxied,
    Const (PyInt 42) (Definite (Klass Sample.int_)) = Const c proxied
    ∧ isinstance_int c = true.
Proof.
  apply (class_instance_as_index_int (Sample.world false Sample.c3) 3
           Sample.instance empty_state _
           (Nat.iter 4 tick empty_state)).
  reflexivity.
Defined.

(** ** What the operations leave of the state *)

(** [safe_infer] and [class_instance_as_index] only request candidates:
    they set no flag and build no class.  [has_known_bases], [is_subtype]
    and [is_supertype] build no class and only set flags of classes that
    had none.  [object_type] sets no flag; the classes it builds come
    after those that exist, each a child of the module of the built-ins
    with one of the five names.  This holds for every call that ends,
    with a value or with an exception. *)
Theorem operations_frame (W : World) :
  (∀ n context st o st',
     safe_infer W n context st = Some (o, st') → quiet st st')
  ∧ (∀ fuel n st o st',
       class_instance_as_index W fuel n st = Some (o, st') → quiet st st')
  ∧ (∀ fuel klass context st o st',
       has_known_bases W fuel klass context st = Some (o, st') →
       flagged st st')
  ∧ (∀ fuel type1 type2 st o st',
       is_subtype W fuel type1 type2 st = Some (o, st') → flagged st st')
  ∧ (∀ fuel type1 type2 st o st',
       is_supertype W fuel type1 type2 st = Some (o, st') → flagged st st')
  ∧ (∀ fuel n context st o st',
       object_type W fuel n context st = Some (o, st') → grown W st st').
Proof.
  split_and!.
  - apply safe_infer_quiet.
  - apply class_instance_as_index_quiet.
  - apply has_known_bases_flagged.
  - intros fuel type1 type2. apply _type_check_flagged.
  - intros fuel type1 type2. apply _type_check_flagged.
  - apply object_type_grown.
Qed.

Lemma operations_frame_witness :
  grown (Sample.world false Sample.c3) empty_state
    {| _all_bases_known := ∅;
       built := [{| name := "method"; parent := Some Sample.builtins_ |}];
       pulls := 2 |}.
Proof.
  destruct (operations_frame (Sample.world false Sample.c3))
    as (_ & _ & _ & _ & _ & H).
  apply (H 2 Sample.method_name None empty_state
           (Return (Definite (Proxy 0)))).
  reflexivity.
Defined.

(** ** The flags after any sequence of calls *)

Section FlagsRight.

Context (W : World).
Hypothesis infer_context : ∀ n context, infer W n context = infer W n None.

Lemma forallb_pointwise {A} (f g : A → bool) (l : list A) :
  (∀ x, f x = g x) → forallb f l = forallb g l.
Proof. intros Hfg. induction l as [|x l IH]; simpl; congruence. Qed.

Lemma known_at_context context d klass :
  known_at W context d klass = known_at W None d klass.
Proof.
  revert klass. induction d as [|d IH]; intros klass; [done|].
  cbn [known_at]. apply forallb_pointwise. intros base.
  unfold base_class. rewrite (infer_context base context).
  destruct (single _) as [[[r| | | | | | |]|]|]; try done. by rewrite IH.
Qed.

Lemma coherent_context context st :
  coherent W context st ↔ coherent W None st.
Proof.
  unfold coherent, known.
  split; intros H klass b Hk; rewrite (H klass b Hk);
    split; intros [d Hd]; exists d;
    by rewrite ?known_at_context in *.
Qed.

Local Instance keeps_coherent_preorder :
  PreOrder (λ st st', coherent W None st → coherent W None st').
Proof. split; [by intros ?|]. intros s1 s2 s3 H1 H2 ?. auto. Qed.

Lemma has_known_bases_coherent fuel klass context st o st' :
  has_known_bases W fuel klass context st = Some (o, st') →
  coherent W None st → coherent W None st'.
Proof.
  intros E Hst%(coherent_context context).
  apply (coherent_context context).
  by destruct (has_known_bases_sound W context _ _ _ _ _ Hst E).
Qed.

Lemma _type_check_coherent fuel type1 type2 st o st' :
  _type_check W fuel type1 type2 st = Some (o, st') →
  coherent W None st → coherent W None st'.
Proof.
  intros E Hst.
  apply _type_check_steps in E as [(o1 & E1)|(k1 & st1 & o2 & E1 & E2)].
  - exact (has_known_bases_coherent _ _ _ _ _ _ E1 Hst).
  - apply (has_known_bases_coherent _ _ _ _ _ _ E2).
    exact (has_known_bases_coherent _ _ _ _ _ _ E1 Hst).
Qed.

Lemma call_coherent st st' :
  call W st st' → coherent W None st → coherent W None st'.
Proof.
  intros [n c o E|fuel n c o E|fuel k c o E|fuel a b o E|fuel a b o E
         |fuel n o E] Hst.
  - apply safe_infer_quiet in E as [E _]. unfold coherent. by rewrite E.
  - apply object_type_grown in E as [E _]. unfold coherent. by rewrite E.
  - by eapply has_known_bases_coherent.
  - by eapply _type_check_coherent.
  - by eapply _type_check_coherent.
  - apply class_instance_as_index_quiet in E as [E _].
    unfold coherent. by rewrite E.
Qed.

Lemma later_coherent st st' :
  later W st st' → coherent W None st → coherent W None st'.
Proof. induction 1; eauto using call_coherent. Qed.

End FlagsRight.

(** When the inference of a node does not depend on the context, the
    flags are right after any sequence of calls of the operations that
    starts without flags: a class has the flag true when each of its bases
    resolves to a single class, other than the class itself, whose bases
    are known in turn, and the flag false when some base does not; and
    [has_known_bases] returns that flag. *)
Theorem flags_right (W : World) st :
  (∀ n context, infer W n context = infer W n None) →
  later W empty_state st →
  ∀ klass b,
    _all_bases_known st !! klass = Some b →
    (b = true ↔ Forall (base_passes W None klass) (bases W klass))
    ∧ ∀ fuel context,
        has_known_bases W (S fuel) klass context st = Some (Return b, st).
Proof.
  intros Hinfer Hlater klass b Hk. split.
  - rewrite <-known_bases.
    apply (later_coherent W Hinfer empty_state st Hlater); [|done].
    apply coherent_empty.
  - intros fuel context. by apply has_known_bases_cached.
Qed.

Lemma flags_right_witness :
  ∃ st,
    is_subtype (Sample.world false Sample.c3) 1 Sample.Base Sample.Cyclic
      empty_state = Some (Return YES, st)
    ∧ _all_bases_known st !! Sample.Cyclic = Some false
    ∧ ¬ Forall (base_passes (Sample.world false Sample.c3) None Sample.Cyclic)
          (bases (Sample.world false Sample.c3) Sample.Cyclic).
Proof.
  exists (store_known Sample.Cyclic false (tick (tick empty_state))).
  split; [reflexivity|]. split; [reflexivity|].
  intros Hall.
  destruct (flags_right (Sample.world false Sample.c3)
              (store_known Sample.Cyclic false (tick (tick empty_state)))
              (λ _ _, eq_refl)) with (klass := Sample.Cyclic) (b := false)
    as [[_ H] _].
  - apply rtc_once.
    by apply (call_is_subtype _ _ _ 1 Sample.Base Sample.Cyclic (Return YES)).
  - reflexivity.
  - by specialize (H Hall).
Defined.
